(** * site.js: theme, drawer, accordion, table of contents, hover menu

    A shallow embedding of [src/pages/static/pages/js/site.js] and the
    properties its specification states about it.

    JavaScript strings are sequences of UTF-16 code units; they are modelled
    as lists of integers, one per code unit, so that [charCodeAt],
    [replaceAll] and the regular expressions of the source act on the same
    data as in the browser. *)

From Stdlib Require Import ZArith List Bool Lia String Ascii.
From Stdlib Require Import DecimalString DecimalPos DecimalN.
From stdpp Require Import gmap list.

Import ListNotations.
Local Open Scope Z_scope.

(** ** Strings *)

Abbreviation jsstring := (list Z).

(** The code units of an ASCII literal. *)
Definition js (s : string) : jsstring :=
  List.map (fun a => Z.of_N (N_of_ascii a)) (list_ascii_of_string s).

(** The double quote and the line feed, which the literals above cannot
    hold. *)
Definition dq : jsstring := [34].
Definition nl : jsstring := [10].

(** [p] is a prefix of [s] ([s.startsWith(p)]). *)
Fixpoint prefixb (p s : jsstring) : bool :=
  match p, s with
  | [], _ => true
  | _ :: _, [] => false
  | x :: p', y :: s' => (x =? y) && prefixb p' s'
  end.

(** [String.prototype.replaceAll(pat, rep)] for a string pattern: the
    occurrences of [pat] are found from left to right and do not overlap.
    [skip] counts the code units of the occurrence being replaced that are
    still to be passed over. *)
Fixpoint replaceAll_from (pat rep : jsstring) (skip : nat) (s : jsstring)
  : jsstring :=
  match s with
  | [] => []
  | c :: s' =>
      match skip with
      | S k => replaceAll_from pat rep k s'
      | O =>
          if prefixb pat s
          then rep ++ replaceAll_from pat rep (Nat.pred (length pat)) s'
          else c :: replaceAll_from pat rep O s'
      end
  end.

Definition replaceAll (pat rep s : jsstring) : jsstring :=
  replaceAll_from pat rep O s.

(** ** escapeHtml (site.js, lines 153-162) *)

Definition escapeHtml (s : jsstring) : jsstring :=
  replaceAll (js "'") (js "&#039;")
    (replaceAll dq (js "&quot;")
       (replaceAll (js ">") (js "&gt;")
          (replaceAll (js "<") (js "&lt;")
             (replaceAll (js "&") (js "&amp;") s)))).

Definition escHtml (s : jsstring) : jsstring := escapeHtml s.
Definition escAttr (s : jsstring) : jsstring := escapeHtml s.

(** The inverse substitution: each entity is put back, in the reverse
    order of [escapeHtml], so that [&amp;] is undone last. *)
Definition unescapeHtml (s : jsstring) : jsstring :=
  replaceAll (js "&amp;") (js "&")
    (replaceAll (js "&lt;") (js "<")
       (replaceAll (js "&gt;") (js ">")
          (replaceAll (js "&quot;") dq
             (replaceAll (js "&#039;") (js "'") s)))).

(** The five entities [escapeHtml] produces. *)
Definition entities : list jsstring :=
  [js "&amp;"; js "&lt;"; js "&gt;"; js "&quot;"; js "&#039;"].

(** Every [&] of [s] starts one of the five entities. *)
Fixpoint amp_starts_entity (s : jsstring) : bool :=
  match s with
  | [] => true
  | c :: s' =>
      (if c =? 38 then existsb (fun e => prefixb e s) entities else true)
      && amp_starts_entity s'
  end.

(** One code unit escaped: what the five passes together do to it. *)
Definition escape_unit (c : Z) : jsstring :=
  if c =? 38 then js "&amp;"
  else if c =? 60 then js "&lt;"
  else if c =? 62 then js "&gt;"
  else if c =? 34 then js "&quot;"
  else if c =? 39 then js "&#039;"
  else [c].

(** The same after the first [k] passes only, or before the last [k]
    passes of [unescapeHtml]. *)
Definition escape_upto (k : nat) (c : Z) : jsstring :=
  if (0 <? k)%nat && (c =? 38) then js "&amp;"
  else if (1 <? k)%nat && (c =? 60) then js "&lt;"
  else if (2 <? k)%nat && (c =? 62) then js "&gt;"
  else if (3 <? k)%nat && (c =? 34) then js "&quot;"
  else if (4 <? k)%nat && (c =? 39) then js "&#039;"
  else [c].

(** The code units [escapeHtml] rewrites, but for [&]. *)
Definition is_markup (c : Z) : bool :=
  (c =? 60) || (c =? 62) || (c =? 34) || (c =? 39).

(** ** hash and cssEscape (site.js, lines 164-171) *)

(** [x | 0]: the 32-bit two's complement integer congruent to [x]. *)
Definition toInt32 (x : Z) : Z := (x + 2 ^ 31) mod 2 ^ 32 - 2 ^ 31.

(** One turn of the loop: [h = ((h<<5)-h) + s.charCodeAt(i); h |= 0]. *)
Definition hash_step (h c : Z) : Z :=
  toInt32 ((toInt32 (Z.shiftl h 5) - h) + c).

Definition hash_loop (s : jsstring) : Z := fold_left hash_step s 0.

(** [String(n)] for a non-negative integer [n]. *)
Definition String_of_nat (n : Z) : jsstring :=
  js (NilZero.string_of_uint (N.to_uint (Z.to_N n))).

Definition hash (s : jsstring) : jsstring :=
  String_of_nat (Z.abs (hash_loop s)).

Definition cssEscape (s : jsstring) : jsstring :=
  replaceAll (js "'") (js "\'") s.

(** The hash without the wrap-around: [h * 31 + c] at each code unit. *)
Definition poly31 (s : jsstring) : Z :=
  fold_left (fun h c => 31 * h + c) s 0.

(** The integers a 32-bit signed integer holds. *)
Definition int32 (x : Z) : Prop := - 2 ^ 31 <= x < 2 ^ 31.

Definition is_digit (c : Z) : bool := (48 <=? c) && (c <=? 57).

(** The number a string of decimal digits writes. *)
Definition digits_value (s : jsstring) : Z :=
  fold_left (fun n c => 10 * n + (c - 48)) s 0.

(** ** Occurrences of a piece of markup in a rendered string *)

(** The number of positions of [s] at which [p] occurs. *)
Fixpoint count_sub (p s : jsstring) : nat :=
  match s with
  | [] => O
  | _ :: s' => ((if prefixb p s then 1 else 0) + count_sub p s')%nat
  end.

(** [Q] holds of every non-empty suffix of [s]. *)
Fixpoint all_suffixes (Q : jsstring -> bool) (s : jsstring) : bool :=
  match s with
  | [] => true
  | _ :: s' => Q s && all_suffixes Q s'
  end.

(** [p] and [w] differ at a position that both have: [p] cannot occur at
    the head of [w ++ r], whatever [r] is. *)
Fixpoint clash (p w : jsstring) : bool :=
  match p, w with
  | x :: p', y :: w' => if x =? y then clash p' w' else true
  | _, _ => false
  end.

(** No occurrence of [p] starts inside [w], whatever follows [w]. *)
Definition no_start (p w : jsstring) : bool := all_suffixes (clash p) w.

(** ** The accordion renderer (site.js, lines 73-128) *)

Module Accordion.

(** A node of [window.__NAV_TREE__]. *)
#[warnings="-register-all"]
Inductive NavNode : Type :=
  Node (title url : jsstring) (children : list NavNode).

Definition title (n : NavNode) : jsstring :=
  match n with Node t _ _ => t end.
Definition url (n : NavNode) : jsstring :=
  match n with Node _ u _ => u end.
Definition children (n : NavNode) : list NavNode :=
  match n with Node _ _ cs => cs end.

(** [node.children && node.children.length] *)
Definition hasKids (n : NavNode) : bool :=
  match children n with [] => false | _ :: _ => true end.

(** [depth > 0 ? " acc__child--indent" : ""] *)
Definition indentClass (depth : nat) : jsstring :=
  if (0 <? depth)%nat then js " acc__child--indent" else [].

(** ["acc_" + hash(node.url)] *)
Definition acc_id (u : jsstring) : jsstring := js "acc_" ++ hash u.

(** The character of [acc__chev], U+25BE. *)
Definition chevron : jsstring := [9662].

Definition indent (k : nat) : jsstring := repeat 32 k.

Fixpoint renderChild (node : NavNode) (depth : nat) : jsstring :=
  match node with
  | Node t u [] =>
      js "<a class=" ++ dq ++ js "acc__child" ++ indentClass depth ++ dq
      ++ js " href=" ++ dq ++ escAttr u ++ dq ++ js ">"
      ++ escHtml t ++ js "</a>"
  | Node t u ((_ :: _) as cs) =>
      let id := acc_id u in
      let kids := concat (List.map (fun c => renderChild c (S depth)) cs) in
      nl
      ++ indent 6 ++ js "<div class=" ++ dq ++ js "acc" ++ dq
      ++ js " data-acc=" ++ dq ++ escAttr id ++ dq
      ++ js " aria-expanded=" ++ dq ++ js "false" ++ dq ++ js ">" ++ nl
      ++ indent 8 ++ js "<button class=" ++ dq ++ js "acc__top" ++ dq
      ++ js " type=" ++ dq ++ js "button" ++ dq
      ++ js " data-acc-toggle=" ++ dq ++ escAttr id ++ dq ++ js ">" ++ nl
      ++ indent 10 ++ js "<span>" ++ escHtml t ++ js "</span>" ++ nl
      ++ indent 10 ++ js "<span class=" ++ dq ++ js "acc__chev" ++ dq
      ++ js ">" ++ chevron ++ js "</span>" ++ nl
      ++ indent 8 ++ js "</button>" ++ nl
      ++ indent 8 ++ js "<div class=" ++ dq ++ js "acc__panel" ++ dq
      ++ js ">" ++ nl
      ++ indent 10 ++ js "<a class=" ++ dq ++ js "acc__child"
      ++ indentClass depth ++ dq
      ++ js " href=" ++ dq ++ escAttr u ++ dq ++ js ">"
      ++ escHtml t ++ js " overview</a>" ++ nl
      ++ indent 10 ++ kids ++ nl
      ++ indent 8 ++ js "</div>" ++ nl
      ++ indent 6 ++ js "</div>" ++ nl
      ++ indent 4
  end.

Definition renderNode (node : NavNode) (depth : nat) : jsstring :=
  match node with
  | Node t u [] =>
      js "<a class=" ++ dq ++ js "drawer__leaf" ++ indentClass depth ++ dq
      ++ js " href=" ++ dq ++ escAttr u ++ dq ++ js ">"
      ++ escHtml t ++ js "</a>"
  | Node t u ((_ :: _) as cs) =>
      let id := acc_id u in
      let kids := concat (List.map (fun c => renderChild c (S depth)) cs) in
      nl
      ++ indent 6 ++ js "<section class=" ++ dq ++ js "acc" ++ dq
      ++ js " data-acc=" ++ dq ++ escAttr id ++ dq
      ++ js " aria-expanded=" ++ dq ++ js "false" ++ dq ++ js ">" ++ nl
      ++ indent 8 ++ js "<button class=" ++ dq ++ js "acc__top" ++ dq
      ++ js " type=" ++ dq ++ js "button" ++ dq
      ++ js " data-acc-toggle=" ++ dq ++ escAttr id ++ dq ++ js ">" ++ nl
      ++ indent 10 ++ js "<span>" ++ escHtml t ++ js "</span>" ++ nl
      ++ indent 10 ++ js "<span class=" ++ dq ++ js "acc__chev" ++ dq
      ++ js ">" ++ chevron ++ js "</span>" ++ nl
      ++ indent 8 ++ js "</button>" ++ nl
      ++ indent 8 ++ js "<div class=" ++ dq ++ js "acc__panel" ++ dq
      ++ js ">" ++ nl
      ++ indent 10 ++ js "<a class=" ++ dq ++ js "acc__child" ++ dq
      ++ js " href=" ++ dq ++ escAttr u ++ dq ++ js ">"
      ++ escHtml t ++ js " overview</a>" ++ nl
      ++ indent 10 ++ kids ++ nl
      ++ indent 8 ++ js "</div>" ++ nl
      ++ indent 6 ++ js "</section>" ++ nl
      ++ indent 4
  end.

(** [navTree.map((n) => renderNode(n, 0)).join("")], the markup assigned to
    [drawerNav.innerHTML]. *)
Definition renderTree (navTree : list NavNode) : jsstring :=
  concat (List.map (fun n => renderNode n O) navTree).

(** A count over the nodes of a tree: [wb u] for a branch node, a node
    with a child, of URL [u], and [wl] for a leaf. *)
Fixpoint weigh (wb : jsstring -> nat) (wl : nat) (n : NavNode) : nat :=
  match n with
  | Node _ _ [] => wl
  | Node _ u ((_ :: _) as cs) =>
      (wb u + list_sum (List.map (weigh wb wl) cs))%nat
  end.

(** The same with the weight of a branch given by its identifier as the
    markup has it, escaped. *)
Definition node_weight (wb : jsstring -> nat) (wl : nat) : NavNode -> nat :=
  weigh (fun u => wb (escAttr (acc_id u))) wl.

(** The branch nodes of a tree, those whose identifier is [i], and the
    leaves. *)
Definition branches : NavNode -> nat := weigh (fun _ => 1%nat) 0.

Definition branches_with_id (i : jsstring) : NavNode -> nat :=
  weigh (fun u => if bool_decide (acc_id u = i) then 1%nat else 0%nat) 0.

Definition leaves : NavNode -> nat := weigh (fun _ => 0%nat) 1.

(** The same over the nodes of [navTree]. *)
Definition total (f : NavNode -> nat) (navTree : list NavNode) : nat :=
  list_sum (List.map f navTree).

(** *** The markup looked for in the rendered string *)

(** The start of a toggle button, and the whole of it up to the end of
    its identifier [i]. *)
Definition button_start : jsstring := js "<button".

Definition button_open : jsstring :=
  js "<button class=" ++ dq ++ js "acc__top" ++ dq
  ++ js " type=" ++ dq ++ js "button" ++ dq ++ js " data-acc-toggle=" ++ dq.

Definition toggle_of (i : jsstring) : jsstring := button_open ++ i ++ dq.

(** The panel of a section. *)
Definition panel_open : jsstring :=
  js "<div class=" ++ dq ++ js "acc__panel" ++ dq ++ js ">".

(** The start of a collapsible section, as [renderNode] and as
    [renderChild] write it, and the whole of it up to the end of its
    identifier [i]. *)
Definition section_start : jsstring :=
  js "<section class=" ++ dq ++ js "acc" ++ dq.
Definition div_start : jsstring :=
  js "<div class=" ++ dq ++ js "acc" ++ dq.

Definition section_open : jsstring := section_start ++ js " data-acc=" ++ dq.
Definition div_open : jsstring := div_start ++ js " data-acc=" ++ dq.

Definition section_of (i : jsstring) : jsstring := section_open ++ i ++ dq.
Definition div_of (i : jsstring) : jsstring := div_open ++ i ++ dq.

(** What follows the identifier in the tag of a collapsed section. *)
Definition collapsed_end : jsstring :=
  dq ++ js " aria-expanded=" ++ dq ++ js "false" ++ dq ++ js ">".

Fixpoint skip_to_quote (s : jsstring) : jsstring :=
  match s with
  | [] => []
  | c :: s' => if c =? 34 then s else skip_to_quote s'
  end.

(** If a collapsible section starts at the head of [s], its tag reads
    [data-acc=], an identifier between quotes, [aria-expanded="false"] and
    the closing [>]. *)
Definition collapsed_here (s : jsstring) : bool :=
  if prefixb section_start s
  then prefixb section_open s
       && prefixb collapsed_end (skip_to_quote (drop (length section_open) s))
  else if prefixb div_start s
  then prefixb div_open s
       && prefixb collapsed_end (skip_to_quote (drop (length div_open) s))
  else true.

(** The number of non-empty suffixes of [s] that satisfy [Q]. *)
Fixpoint count_suffixes (Q : jsstring -> bool) (s : jsstring) : nat :=
  match s with
  | [] => O
  | _ :: s' => ((if Q s then 1 else 0) + count_suffixes Q s')%nat
  end.

(** The collapsible sections that start in [s], [section] or [div], and
    those of them whose identifier is [i]. *)
Definition count_sections (s : jsstring) : nat :=
  (count_sub section_start s + count_sub div_start s)%nat.

Definition count_sections_of (i s : jsstring) : nat :=
  (count_sub (section_of i) s + count_sub (div_of i) s)%nat.

(** The positions of [s] where a collapsible section starts that is not
    written as collapsed. *)
Definition count_not_collapsed (s : jsstring) : nat :=
  count_suffixes (fun w => negb (collapsed_here w)) s.

(** *** The constant pieces of the two templates *)

Definition before_open : jsstring := nl ++ indent 6.

Definition before_button : jsstring :=
  js " aria-expanded=" ++ dq ++ js "false" ++ dq ++ js ">" ++ nl ++ indent 8.

Definition before_title : jsstring := js ">" ++ nl ++ indent 10 ++ js "<span>".

Definition before_class : jsstring :=
  js "</span>" ++ nl
  ++ indent 10 ++ js "<span class=" ++ dq ++ js "acc__chev" ++ dq
  ++ js ">" ++ chevron ++ js "</span>" ++ nl
  ++ indent 8 ++ js "</button>" ++ nl
  ++ indent 8 ++ js "<div class=" ++ dq ++ js "acc__panel" ++ dq
  ++ js ">" ++ nl
  ++ indent 10 ++ js "<a class=" ++ dq ++ js "acc__child".

Definition before_href : jsstring := dq ++ js " href=" ++ dq.

Definition after_href : jsstring := dq ++ js ">".

Definition before_kids : jsstring := js " overview</a>" ++ nl ++ indent 10.

Definition after_kids (tag : jsstring) : jsstring :=
  nl ++ indent 8 ++ js "</div>" ++ nl
  ++ indent 6 ++ js "</" ++ tag ++ js ">" ++ nl
  ++ indent 4.

(** The markup of a branch before its children: [open] is [section_open]
    or [div_open], [i] the escaped identifier, [t] and [u] the escaped
    title and URL, [cls] the indentation class. *)
Definition branch_head (open i t cls u : jsstring) : jsstring :=
  before_open ++ open ++ i ++ dq ++ before_button ++ button_open ++ i
  ++ dq ++ before_title ++ t ++ before_class ++ cls ++ before_href ++ u
  ++ after_href ++ t ++ before_kids.

(** The markup of a leaf: [cls] holds the class of the link. *)
Definition leaf_link (cls t u : jsstring) : jsstring :=
  js "<a class=" ++ dq ++ cls ++ before_href ++ u ++ after_href ++ t
  ++ js "</a>".

(** A string without [<], [>] and quotes, as an escaped string is, and a
    string without [&] either, which escaping does not change. *)
Definition clean (s : jsstring) : Prop :=
  Forall (fun c => is_markup c = false) s.

Definition plain (s : jsstring) : Prop :=
  Forall (fun c => is_markup c = false /\ c <> 38) s.

(** Every start of [p] inside [w] is decided inside [w]: either [p] occurs
    there or it cannot, whatever follows [w]. *)
Definition settled (p w : jsstring) : bool :=
  all_suffixes (fun w' => clash p w' || prefixb p w') w.

(** The first code unit of [b] does not come back in [b]. *)
Definition self_free (b : jsstring) : bool :=
  match b with
  | [] => false
  | x :: b' => forallb (fun c => negb (c =? x)) b'
  end.

(** *** Tags *)

Definition tag_open (name : jsstring) : jsstring := js "<" ++ name.
Definition tag_close (name : jsstring) : jsstring := js "</" ++ name ++ js ">".

(** The tags of [name] opened in [s] less those closed. *)
Definition tag_balance (name s : jsstring) : Z :=
  Z.of_nat (count_sub (tag_open name) s)
  - Z.of_nat (count_sub (tag_close name) s).

(** The tags the two templates write. *)
Definition template_tags : list jsstring :=
  [js "section"; js "div"; js "button"; js "span"; js "a"].

(** The nodes of a tree. *)
Definition nodes : NavNode -> nat := weigh (fun _ => 1%nat) 1.

(** A count over a top-level node and what is below it: [topb] or [topl]
    for the node itself, a branch or a leaf, and [wb] or [wl] for each
    node below it. *)
Definition top_weight (topb topl wb wl : nat) (n : NavNode) : nat :=
  match n with
  | Node _ _ [] => topl
  | Node _ _ ((_ :: _) as cs) =>
      (topb + list_sum (List.map (weigh (fun _ => wb) wl) cs))%nat
  end.

(** The nodes below a top-level node; 1 for a top-level branch; 1 for a
    top-level leaf. *)
Definition nested_nodes : NavNode -> nat := top_weight 0 0 1 1.
Definition top_branch : NavNode -> nat := top_weight 1 0 0 0.
Definition top_leaf : NavNode -> nat := top_weight 0 1 0 0.

(** The start of a link with the indentation class, of a link of class
    [acc__child] without it, and of the link of a top-level leaf. *)
Definition indent_class : jsstring := js " acc__child--indent".

Definition indented_link : jsstring :=
  js "<a class=" ++ dq ++ js "acc__child" ++ indent_class ++ dq.

Definition unindented_link : jsstring :=
  js "<a class=" ++ dq ++ js "acc__child" ++ dq.

Definition top_leaf_link : jsstring :=
  js "<a class=" ++ dq ++ js "drawer__leaf" ++ dq.

(** The start of a [drawer__leaf] link with the indentation class. *)
Definition indented_leaf_link : jsstring :=
  js "<a class=" ++ dq ++ js "drawer__leaf" ++ indent_class.

(** The class of the overview link of a branch with what is around it in
    the template, and the start of the link of a leaf. *)
Definition class_attr (cls : jsstring) : jsstring :=
  before_class ++ cls ++ before_href.

Definition leaf_start (cls : jsstring) : jsstring :=
  js "<a class=" ++ dq ++ cls ++ before_href.

End Accordion.

(** ** The toggle buttons of the accordion (site.js, lines 75-83) *)

Module AccordionClick.

(** An element of [drawerNav] that has a [data-acc] attribute, with its
    [aria-expanded] attribute ([None] when it has none). The elements are
    kept in document order. *)
Record element := {
  data_acc : jsstring;
  aria_expanded : option jsstring
}.

(** [acc.setAttribute("aria-expanded", expanded ? "false" : "true")] where
    [expanded] is [acc.getAttribute("aria-expanded") === "true"]. *)
Definition flip (a : element) : element :=
  {| data_acc := data_acc a;
     aria_expanded :=
       Some (if bool_decide (aria_expanded a = Some (js "true"))
             then js "false" else js "true") |}.

(** [querySelector] with an attribute selector, followed by the flip: the
    first element in document order whose [data-acc] is [v] is the one
    found. *)
Fixpoint flip_first (v : jsstring) (secs : list element) : list element :=
  match secs with
  | [] => []
  | a :: rest =>
      if bool_decide (data_acc a = v) then flip a :: rest
      else a :: flip_first v rest
  end.

Section WithCssString.

(** The string a quoted string of a CSS selector denotes, [None] when the
    selector does not parse: the parser is the browser's. *)
Variable css_string : jsstring -> option jsstring.

(** The click listener of the button whose [data-acc-toggle] is [id]. When
    the selector does not parse [querySelector] throws and the listener
    ends with nothing changed; when no element is found it returns. *)
Definition click (id : jsstring) (secs : list element) : list element :=
  match css_string (cssEscape id) with
  | None => secs
  | Some v => flip_first v secs
  end.

End WithCssString.

(** The sections with [data-acc] equal to [v]. *)
Definition with_id (v : jsstring) (secs : list element) : list element :=
  List.filter (fun a => bool_decide (data_acc a = v)) secs.

(** Every element has [aria-expanded] at [true] or at [false], as the
    rendered sections have. *)
Definition two_valued (secs : list element) : Prop :=
  Forall (fun a => aria_expanded a = Some (js "true")
                   \/ aria_expanded a = Some (js "false")) secs.

End AccordionClick.

(** ** The table of contents (site.js, lines 130-151) *)

Module Toc.

(** [\s] of a regular expression, and what [trim] removes: the white space
    and line terminator code units of ECMAScript. *)
Definition is_space (c : Z) : bool :=
  ((9 <=? c) && (c <=? 13)) || (c =? 32) || (c =? 160) || (c =? 5760)
  || ((8192 <=? c) && (c <=? 8202)) || (c =? 8232) || (c =? 8233)
  || (c =? 8239) || (c =? 8287) || (c =? 12288) || (c =? 65279).

(** [\w] of a regular expression without the [u] and [i] flags:
    [A-Za-z0-9_]. *)
Definition is_word (c : Z) : bool :=
  ((48 <=? c) && (c <=? 57)) || ((65 <=? c) && (c <=? 90))
  || ((97 <=? c) && (c <=? 122)) || (c =? 95).

Fixpoint dropWhile (f : Z -> bool) (s : jsstring) : jsstring :=
  match s with
  | [] => []
  | c :: s' => if f c then dropWhile f s' else s
  end.

(** [String.prototype.trim] *)
Definition trim (s : jsstring) : jsstring :=
  rev (dropWhile is_space (rev (dropWhile is_space s))).

(** The class [[^\w\s-]]. *)
Definition not_word_space_hyphen (c : Z) : bool :=
  negb (is_word c || is_space c || (c =? 45)).

(** [s.replace(/[C]/g, "")] for a class [C] of code units: every match is
    one code unit, and it is replaced by nothing. *)
Fixpoint replace_class_empty (C : Z -> bool) (s : jsstring) : jsstring :=
  match s with
  | [] => []
  | c :: s' =>
      if C c then replace_class_empty C s' else c :: replace_class_empty C s'
  end.

(** [s.replace(/[C]+/g, rep)]: a match starts at the first code unit of the
    class that is met and, [+] being greedy, takes every code unit of the
    class that follows; the search goes on after the match.
    [replace_plus_skip] is the scan inside a match. *)
Fixpoint replace_plus (C : Z -> bool) (rep s : jsstring) : jsstring :=
  match s with
  | [] => []
  | c :: s' =>
      if C c then rep ++ replace_plus_skip C rep s'
      else c :: replace_plus C rep s'
  end
with replace_plus_skip (C : Z -> bool) (rep s : jsstring) : jsstring :=
  match s with
  | [] => []
  | c :: s' =>
      if C c then replace_plus_skip C rep s'
      else c :: replace_plus C rep s'
  end.

(** A sample heading text with white space around it, a tab and a line
    feed among it, and two spaces between the words. *)
Definition padded_text : jsstring :=
  [9; 32] ++ js "Getting  Started!" ++ [32; 10].

(** What [toLowerCase] does to the code unit of an ASCII letter. *)
Definition lower_ascii (c : Z) : Z :=
  if (65 <=? c) && (c <=? 90) then c + 32 else c.

Definition is_ascii (c : Z) : bool := (0 <=? c) && (c <? 128).

Record Heading := {
  id : jsstring;           (* h.id, empty when the heading has none *)
  textContent : jsstring;
  tagName : jsstring
}.

Record TocItem := {
  item_id : jsstring;
  item_text : jsstring;
  item_depth : Z
}.

Section WithToLowerCase.

(** [String.prototype.toLowerCase] is the engine's: its Unicode case
    tables are not in the script. *)
Variable toLowerCase : jsstring -> jsstring.

(** The identifier computed at lines 138-142. *)
Definition slug (text : jsstring) : jsstring :=
  replace_plus is_space (js "-")
    (replace_class_empty not_word_space_hyphen
       (trim (toLowerCase text))).

(** The first statement of the [forEach] callback: [if (!h.id) h.id = ...] *)
Definition assignId (h : Heading) : Heading :=
  match id h with
  | [] => {| id := slug (textContent h);
             textContent := textContent h;
             tagName := tagName h |}
  | _ :: _ => h
  end.

(** The callback applied to the headings in document order: the headings
    as it leaves them and the items it pushes. *)
Definition tocItem (h : Heading) : TocItem :=
  {| item_id := id h;
     item_text := textContent h;
     item_depth := if bool_decide (tagName h = js "H3") then 3 else 2 |}.

Definition scanHeadings (hs : list Heading) : list Heading * list TocItem :=
  let hs' := List.map assignId hs in (hs', List.map tocItem hs').

(** The slug as the specification words it: a white space code unit that
    follows another one disappears, every other one becomes a hyphen;
    before that the text is lowercased and trimmed and only word
    characters, white space and hyphens are kept. *)
Fixpoint collapse_runs (after_space : bool) (s : jsstring) : jsstring :=
  match s with
  | [] => []
  | c :: s' =>
      if is_space c
      then (if after_space then [] else [45]) ++ collapse_runs true s'
      else c :: collapse_runs false s'
  end.

Definition keep_word_space_hyphen (s : jsstring) : jsstring :=
  List.filter (fun c => is_word c || is_space c || (c =? 45)) s.

(** Trimming as the specification words it: the white space the text
    starts with goes, and so does the white space it ends with. *)
Fixpoint strip_leading (s : jsstring) : jsstring :=
  match s with
  | [] => []
  | c :: s' => if is_space c then strip_leading s' else s
  end.

Fixpoint strip_trailing (s : jsstring) : jsstring :=
  match s with
  | [] => []
  | c :: s' =>
      match strip_trailing s' with
      | [] => if is_space c then [] else [c]
      | t => c :: t
      end
  end.

Definition trimmed (s : jsstring) : jsstring :=
  strip_trailing (strip_leading s).

Definition slug_spec (text : jsstring) : jsstring :=
  collapse_runs false (keep_word_space_hyphen (trimmed (toLowerCase text))).

End WithToLowerCase.

(** The markup of one entry, lines 148-150: the id and the depth go in as
    they are, the text is escaped. *)
Definition tocLink (it : TocItem) : jsstring :=
  js "<a href=" ++ dq ++ js "#" ++ item_id it ++ dq
  ++ js " data-depth=" ++ dq ++ String_of_nat (item_depth it) ++ dq
  ++ js ">" ++ escapeHtml (item_text it) ++ js "</a>".

Definition no_headings : jsstring :=
  js "<div class=" ++ dq ++ js "muted" ++ dq ++ js ">No headings found.</div>".

(** The value given to [toc.innerHTML]. *)
Definition renderToc (items : list TocItem) : jsstring :=
  match items with
  | [] => no_headings
  | _ :: _ => concat (List.map tocLink items)
  end.

(** A code unit of a slug: a word character or a hyphen. *)
Definition is_slug_unit (c : Z) : bool := is_word c || (c =? 45).

(** The start of a link of the table of contents. *)
Definition toc_link_start : jsstring := js "<a href=" ++ dq ++ js "#".

End Toc.

(** ** The theme (site.js, lines 17-29) *)

Module Theme.

(** The two stores the theme code touches: the attributes of the root
    element and [localStorage]. [getAttribute] and [getItem] give [null]
    where the key has no value: the lookup gives [None]. *)
Record Page := {
  root : gmap (list Z) (list Z);
  localStorage : gmap (list Z) (list Z)
}.

(** [x === "lit"] for [x] a string or [null]. *)
Definition strict_eq (x : option jsstring) (lit : jsstring) : bool :=
  bool_decide (x = Some lit).

(** Lines 19-20. *)
Definition applyStoredTheme (p : Page) : Page :=
  let saved := localStorage p !! js "theme" in
  if strict_eq saved (js "light") || strict_eq saved (js "dark")
  then match saved with
       | Some v => {| root := <[js "data-theme" := v]> (root p);
                      localStorage := localStorage p |}
       | None => p
       end
  else p.

(** The click listener of [themeToggle], lines 23-28. *)
Definition toggleTheme (p : Page) : Page :=
  let current := root p !! js "data-theme" in
  let next := if strict_eq current (js "dark") then js "light" else js "dark" in
  {| root := <[js "data-theme" := next]> (root p);
     localStorage := <[js "theme" := next]> (localStorage p) |}.

Inductive theme : Type := Light | Dark.

(** The theme the toggle takes the page to be in: [current === "dark"]
    and everything else. *)
Definition read_by_toggle (p : Page) : theme :=
  if strict_eq (root p !! js "data-theme") (js "dark") then Dark else Light.

(** The theme the page shows. The style sheet is not part of the script:
    what a page without the attribute looks like, [default], is the
    document's choice. *)
Definition shown (default : theme) (p : Page) : theme :=
  let a := root p !! js "data-theme" in
  if strict_eq a (js "dark") then Dark
  else if strict_eq a (js "light") then Light
  else default.

(** A page with no theme attribute and nothing stored. *)
Definition fresh : Page := {| root := ∅; localStorage := ∅ |}.

(** Two toggles bring back the theme the page shows. *)
Definition returns_after_two (default : theme) (p : Page) : Prop :=
  shown default (toggleTheme (toggleTheme p)) = shown default p.

(** The page shows dark, then light after a toggle, then dark after a
    second one. *)
Definition dark_light_dark (default : theme) (p : Page) : Prop :=
  shown default p = Dark
  /\ shown default (toggleTheme p) = Light
  /\ shown default (toggleTheme (toggleTheme p)) = Dark.

End Theme.

(** ** The drawer (site.js, lines 31-71) *)

Module Drawer.

(** The elements the drawer code looks up, each of which can be missing,
    with the attributes and the style it writes. *)
Record Dom := {
  drawer : option bool;                (* #drawer: has it the hidden attribute? *)
  menuToggle : option (option jsstring); (* #menuToggle: its aria-expanded *)
  menuClose : bool;                    (* is there a #menuClose? *)
  overflow : jsstring                  (* document.body.style.overflow *)
}.

Definition set_expanded (v : jsstring) (d : Dom) : option (option jsstring) :=
  match menuToggle d with
  | Some _ => Some (Some v)
  | None => None
  end.

Definition openDrawer (d : Dom) : Dom :=
  match drawer d with
  | None => d
  | Some _ =>
      {| drawer := Some false;
         menuToggle := set_expanded (js "true") d;
         menuClose := menuClose d;
         overflow := js "hidden" |}
  end.

Definition closeDrawer (d : Dom) : Dom :=
  match drawer d with
  | None => d
  | Some _ =>
      {| drawer := Some true;
         menuToggle := set_expanded (js "false") d;
         menuClose := menuClose d;
         overflow := [] |}
  end.

Inductive event : Type :=
| ToggleClick                       (* click on #menuToggle *)
| CloseClick                        (* click on #menuClose *)
| DrawerClick (on_drawer : bool)    (* click in the drawer; e.target === drawer *)
| KeyDown (key : jsstring)
| Resize (width : Z).               (* the viewport is now [width] px wide *)

(** [window.matchMedia("(min-width: 981px)").matches] *)
Definition wide (width : Z) : bool := 981 <=? width.

Definition hasHidden (d : Dom) : bool :=
  match drawer d with Some h => h | None => false end.

(** The listeners of lines 51-71; an event whose listener was not
    registered changes nothing. *)
Definition handle (e : event) (d : Dom) : Dom :=
  match e with
  | ToggleClick =>
      match menuToggle d, drawer d with
      | Some _, Some isHidden => if isHidden then openDrawer d else closeDrawer d
      | _, _ => d
      end
  | CloseClick => if menuClose d then closeDrawer d else d
  | DrawerClick on_drawer =>
      match drawer d with
      | Some _ => if on_drawer then closeDrawer d else d
      | None => d
      end
  | KeyDown key =>
      match drawer d with
      | Some _ =>
          if bool_decide (key = js "Escape") && negb (hasHidden d)
          then closeDrawer d else d
      | None => d
      end
  | Resize width => if wide width then closeDrawer d else d
  end.

(** The drawer is there and shown. *)
Definition is_open (d : Dom) : Prop := drawer d = Some false.

(** The closed state: hidden, the toggle (when there is one) not expanded,
    the page scrolling. *)
Definition is_closed (d : Dom) : Prop :=
  drawer d = Some true
  /\ (forall a, menuToggle d = Some a -> a = Some (js "false"))
  /\ overflow d = [].

(** The four events that are to close an open drawer: a press of the
    close button, which has to be there, a click on the drawer container
    itself, the Escape key, and a resize to a width of 981px or more. *)
Definition closing (e : event) (d : Dom) : Prop :=
  match e with
  | ToggleClick => False
  | CloseClick => menuClose d = true
  | DrawerClick on_drawer => on_drawer = true
  | KeyDown key => key = js "Escape"
  | Resize width => 981 <= width
  end.

(** The three effects of opening. *)
Definition is_opened (d : Dom) : Prop :=
  drawer d = Some false
  /\ (forall a, menuToggle d = Some a -> a = Some (js "true"))
  /\ overflow d = js "hidden".

(** The page after the events [es], the first of the list first. *)
Definition run (es : list event) (d : Dom) : Dom :=
  fold_left (fun d e => handle e d) es d.

(** The two states the three effects agree on. *)
Definition consistent (d : Dom) : Prop := is_closed d \/ is_opened d.

(** The runs of a listener that are not to close an open drawer: the
    drawer's click listener run for a target that is not the container,
    the keydown listener run for a key that is not Escape, the resize
    listener run at less than 981px. A click on one of the two buttons
    runs that button's listener, wherever the button is in the page, and
    is not among them. *)
Definition harmless (e : event) : Prop :=
  match e with
  | DrawerClick on_drawer => on_drawer = false
  | KeyDown key => key <> js "Escape"
  | Resize width => width < 981
  | ToggleClick | CloseClick => False
  end.

(** The button of the event is missing, so that lines 51 and 58 have
    registered no listener for it. *)
Definition unregistered (e : event) (d : Dom) : Prop :=
  match e with
  | ToggleClick => menuToggle d = None
  | CloseClick => menuClose d = false
  | DrawerClick _ | KeyDown _ | Resize _ => False
  end.

End Drawer.

(** ** The desktop hover menu (site.js, lines 172-262) *)

Module HoverMenu.

(** An entry of [menuItems] that has a submenu, by its index: the entries
    the listeners are attached to. *)
Abbreviation item := nat.

(** The variables [active] and [closeTimer], the [is-open] class of the
    items, the media query, and the part of the browser the code talks
    to: the timers this script has started and not yet seen run or
    cancelled (handle and time due, in ms), the next handle [setTimeout]
    gives out (handles are positive integers), and the clock. *)
Record state := {
  desktop : bool;                   (* mqDesktop.matches *)
  active : option item;
  closeTimer : option positive;
  opened : gset item;               (* the items carrying is-open *)
  pending : list (positive * nat);
  next_handle : positive;
  now : nat
}.

(** The delay given to [setTimeout], in ms. *)
Definition close_delay : nat := 120.

Definition clearTimeout (h : positive) (s : state) : state :=
  {| desktop := desktop s; active := active s; closeTimer := closeTimer s;
     opened := opened s;
     pending := List.filter (fun t => negb (Pos.eqb (fst t) h)) (pending s);
     next_handle := next_handle s; now := now s |}.

(** [setTimeout(f, delay)]: the handle returned and the state with the
    timer started; the only [f] of the script is [doClose]. *)
Definition setTimeout (delay : nat) (s : state) : positive * state :=
  (next_handle s,
   {| desktop := desktop s; active := active s; closeTimer := closeTimer s;
      opened := opened s;
      pending := pending s ++ [(next_handle s, (now s + delay)%nat)];
      next_handle := Pos.succ (next_handle s); now := now s |}).

Definition set_closeTimer (t : option positive) (s : state) : state :=
  {| desktop := desktop s; active := active s; closeTimer := t;
     opened := opened s; pending := pending s;
     next_handle := next_handle s; now := now s |}.

Definition set_active (a : option item) (s : state) : state :=
  {| desktop := desktop s; active := a; closeTimer := closeTimer s;
     opened := opened s; pending := pending s;
     next_handle := next_handle s; now := now s |}.

(** [li.classList.remove("is-open")] and [li.classList.add("is-open")] *)
Definition remove_open (li : item) (s : state) : state :=
  {| desktop := desktop s; active := active s; closeTimer := closeTimer s;
     opened := opened s ∖ {[li]}; pending := pending s;
     next_handle := next_handle s; now := now s |}.

Definition add_open (li : item) (s : state) : state :=
  {| desktop := desktop s; active := active s; closeTimer := closeTimer s;
     opened := {[li]} ∪ opened s; pending := pending s;
     next_handle := next_handle s; now := now s |}.

Definition clearCloseTimer (s : state) : state :=
  match closeTimer s with
  | Some h => set_closeTimer None (clearTimeout h s)
  | None => s
  end.

(** The closure [doClose] of [closeActive]. *)
Definition doClose (s : state) : state :=
  match active s with
  | Some a => set_active None (remove_open a s)
  | None => s
  end.

Definition closeActive (immediate : bool) (s : state) : state :=
  let s1 := clearCloseTimer s in
  if immediate then doClose s1
  else let '(h, s2) := setTimeout close_delay s1 in
       set_closeTimer (Some h) s2.

Definition openItem (li : item) (s : state) : state :=
  let s1 := clearCloseTimer s in
  let s2 := match active s1 with
            | Some a => if bool_decide (a ≠ li) then remove_open a s1 else s1
            | None => s1
            end in
  add_open li (set_active (Some li) s2).

Inductive event : Type :=
| ItemEnter (li : item)                      (* pointerenter on li *)
| ItemLeave (li : item) (to_submenu : bool)  (* pointerleave on li;
                                                submenu.contains(e.relatedTarget) *)
| SubmenuEnter (li : item)                   (* pointerenter on li's submenu *)
| SubmenuLeave (li : item) (to_item : bool)  (* pointerleave on li's submenu;
                                                li.contains(e.relatedTarget) *)
| PointerDown (in_menubar : bool)            (* e.target.closest(".menubar") *)
| KeyDown (key : jsstring)
| BreakpointChange                           (* change of mqDesktop *)
| Elapse (ms : nat)                          (* time passes *)
| TimerFires (h : positive).                 (* the browser runs timer h *)

Definition set_desktop (b : bool) (s : state) : state :=
  {| desktop := b; active := active s; closeTimer := closeTimer s;
     opened := opened s; pending := pending s;
     next_handle := next_handle s; now := now s |}.

Definition set_now (t : nat) (s : state) : state :=
  {| desktop := desktop s; active := active s; closeTimer := closeTimer s;
     opened := opened s; pending := pending s;
     next_handle := next_handle s; now := t |}.

(** Is timer [h] started, not cancelled and due? *)
Definition due (h : positive) (s : state) : bool :=
  existsb (fun t => Pos.eqb (fst t) h && (snd t <=? now s)%nat) (pending s).

(** The listeners of lines 215-262 and the two moves of the browser. A
    change of the media query and the run of its listener are one step;
    a timer runs once, when it is due, unless it was cancelled. *)
Definition step (e : event) (s : state) : state :=
  match e with
  | ItemEnter li => if desktop s then openItem li s else s
  | ItemLeave li to_submenu =>
      if negb (desktop s) then s
      else if to_submenu then s
      else closeActive false s
  | SubmenuEnter li =>
      if desktop s then openItem li (clearCloseTimer s) else s
  | SubmenuLeave li to_item =>
      if negb (desktop s) then s
      else if to_item then s
      else closeActive false s
  | PointerDown in_menubar =>
      if negb (desktop s) then s
      else if in_menubar then s else closeActive true s
  | KeyDown key =>
      if negb (desktop s) then s
      else if bool_decide (key = js "Escape") then closeActive true s else s
  | BreakpointChange => closeActive true (set_desktop (negb (desktop s)) s)
  | Elapse ms => set_now (now s + ms)%nat s
  | TimerFires h => if due h s then doClose (clearTimeout h s) else s
  end.

(** The state [setupDesktopMenus] leaves: no item carries [is-open],
    [active] and [closeTimer] are [null]. *)
Definition setup (mq : bool) (h0 : positive) (t0 : nat) : state :=
  {| desktop := mq; active := None; closeTimer := None; opened := ∅;
     pending := []; next_handle := h0; now := t0 |}.

(** The state after the events [es], the first of the list first. *)
Definition run (es : list event) (s : state) : state :=
  fold_left (fun s e => step e s) es s.

(** The states the page can be in: those some events lead to from a
    state [setupDesktopMenus] leaves. *)
Definition reachable (s : state) : Prop :=
  exists es mq h0 t0, s = run es (setup mq h0 t0).

(** What every reachable state satisfies: an item carrying [is-open] is
    [active]; a started timer has its handle in [closeTimer]; one timer at
    most is started; an item is open on a desktop viewport only. *)
Record inv (s : state) : Prop := {
  inv_open : forall x, x ∈ opened s -> active s = Some x;
  inv_timer : forall t, In t (pending s) -> closeTimer s = Some (fst t);
  inv_one : (length (pending s) <= 1)%nat;
  inv_desktop : forall x, x ∈ opened s -> desktop s = true
}.

(** More that every reachable state satisfies: the items carrying
    [is-open] are [active] and nothing else; a timer is started on a
    desktop viewport only. *)
Record inv_sync (s : state) : Prop := {
  sync_open : opened s = match active s with
                         | Some a => {[a]}
                         | None => ∅
                         end;
  sync_pending : pending s <> [] -> desktop s = true
}.

(** The events whose listener returns at once on a desktop viewport: a
    pointer press inside the menu bar and a key that is not Escape. *)
Definition is_ignored (e : event) : Prop :=
  match e with
  | PointerDown in_menubar => in_menubar = true
  | KeyDown key => key <> js "Escape"
  | _ => False
  end.

(** The moves of the browser alone: time passing and timers running. *)
Definition is_browser_move (e : event) : bool :=
  match e with
  | Elapse _ | TimerFires _ => true
  | _ => false
  end.

(** The events whose listener starts with the media query test. *)
Definition is_guarded (e : event) : bool :=
  match e with
  | ItemEnter _ | ItemLeave _ _ | SubmenuEnter _ | SubmenuLeave _ _
  | PointerDown _ | KeyDown _ => true
  | _ => false
  end.

(** The events that close at once: Escape, a pointer press outside the
    menu bar, a change of the media query. *)
Definition closes_at_once (e : event) : Prop :=
  match e with
  | PointerDown in_menubar => in_menubar = false
  | KeyDown key => key = js "Escape"
  | BreakpointChange => True
  | _ => False
  end.

End HoverMenu.

(** * Properties *)

(** ** Occurrences and replacement *)

Section Occurrences.

Implicit Types p w r s : jsstring.

Lemma prefixb_app p r : prefixb p (p ++ r) = true.
Proof.
  induction p as [|x p IH]; simpl; [reflexivity|].
  rewrite Z.eqb_refl. exact IH.
Qed.

Lemma prefixb_app_same p q r : prefixb (p ++ q) (p ++ r) = prefixb q r.
Proof.
  induction p as [|x p IH]; simpl; [reflexivity|].
  rewrite Z.eqb_refl. exact IH.
Qed.

Lemma clash_prefixb p w r : clash p w = true -> prefixb p (w ++ r) = false.
Proof.
  revert w. induction p as [|x p IH]; intros [|y w]; simpl; try discriminate.
  destruct (x =? y); simpl; [apply IH | reflexivity].
Qed.

Lemma clash_app p q w : clash p w = true -> clash (p ++ q) w = true.
Proof.
  revert w. induction p as [|x p IH]; intros [|y w]; simpl; try discriminate.
  destruct (x =? y); [apply IH | reflexivity].
Qed.

Lemma no_start_app p q w : no_start p w = true -> no_start (p ++ q) w = true.
Proof.
  unfold no_start. induction w as [|y w IH]; simpl; [reflexivity|].
  intros [H1 H2]%andb_prop. rewrite (clash_app _ _ _ H1). simpl. auto.
Qed.

(** A string that lacks the first code unit of [p] holds no start of [p]. *)
Lemma no_start_absent x p w :
  Forall (fun c => c <> x) w -> no_start (x :: p) w = true.
Proof.
  unfold no_start. induction 1 as [|y w Hy _ IH]; simpl; [reflexivity|].
  destruct (Z.eqb_spec x y); [congruence|]. exact IH.
Qed.

Lemma count_sub_no_start p w r :
  no_start p w = true -> count_sub p (w ++ r) = count_sub p r.
Proof.
  unfold no_start. induction w as [|y w IH]; simpl; [reflexivity|].
  intros [H1 H2]%andb_prop.
  change (y :: w ++ r) with ((y :: w) ++ r).
  rewrite (clash_prefixb _ _ r H1). simpl. auto.
Qed.

Lemma count_sub_absent x p w r :
  Forall (fun c => c <> x) w -> count_sub (x :: p) (w ++ r) = count_sub (x :: p) r.
Proof. intros H. apply count_sub_no_start, no_start_absent, H. Qed.

(** An occurrence of [x :: p] at the head, [x] not being in [p]: the next
    one starts after it. *)
Lemma count_sub_hit x p q r :
  Forall (fun c => c <> x) p ->
  count_sub (x :: p ++ q) (x :: p ++ r)
  = ((if prefixb q r then 1 else 0) + count_sub (x :: p ++ q) r)%nat.
Proof.
  intros H.
  change (count_sub (x :: p ++ q) (x :: p ++ r))
    with ((if prefixb ((x :: p) ++ q) ((x :: p) ++ r) then 1 else 0)
          + count_sub (x :: p ++ q) (p ++ r))%nat.
  rewrite prefixb_app_same. f_equal.
  apply (count_sub_absent x (p ++ q) p r H).
Qed.

Lemma count_sub_nil_r p : count_sub p [] = O.
Proof. reflexivity. Qed.

Lemma replaceAll_from_skip pat rep w r :
  replaceAll_from pat rep (length w) (w ++ r) = replaceAll_from pat rep O r.
Proof. induction w as [|y w IH]; simpl; [reflexivity | exact IH]. Qed.

Lemma replaceAll_hit pat rep r :
  pat <> [] -> replaceAll pat rep (pat ++ r) = rep ++ replaceAll pat rep r.
Proof.
  destruct pat as [|x pat]; [congruence|]. intros _. unfold replaceAll.
  change (replaceAll_from (x :: pat) rep O ((x :: pat) ++ r))
    with (if prefixb (x :: pat) ((x :: pat) ++ r)
          then rep ++ replaceAll_from (x :: pat) rep (length pat) (pat ++ r)
          else x :: replaceAll_from (x :: pat) rep O (pat ++ r)).
  rewrite prefixb_app, replaceAll_from_skip. reflexivity.
Qed.

Lemma replaceAll_no_start pat rep w r :
  no_start pat w = true ->
  replaceAll pat rep (w ++ r) = w ++ replaceAll pat rep r.
Proof.
  unfold no_start, replaceAll. induction w as [|y w IH]; [reflexivity|].
  simpl all_suffixes. intros [H1 H2]%andb_prop.
  change (replaceAll_from pat rep O ((y :: w) ++ r))
    with (if prefixb pat ((y :: w) ++ r)
          then rep ++ replaceAll_from pat rep (Nat.pred (length pat)) (w ++ r)
          else y :: replaceAll_from pat rep O (w ++ r)).
  rewrite (clash_prefixb _ _ r H1), (IH H2). reflexivity.
Qed.

(** One pass of [replaceAll] over a string made of blocks: the blocks equal
    to the pattern are replaced, the others hold no start of the pattern
    and stay. *)
Lemma replaceAll_blocks pat rep (f g : Z -> jsstring) s :
  pat <> [] ->
  (forall c, (f c = pat /\ g c = rep)
             \/ (f c = g c /\ no_start pat (f c) = true)) ->
  replaceAll pat rep (flat_map f s) = flat_map g s.
Proof.
  intros Hne Hfg. induction s as [|c s IH]; [reflexivity|].
  simpl. destruct (Hfg c) as [[-> ->]|[<- Hc]].
  - rewrite (replaceAll_hit _ _ _ Hne), IH. reflexivity.
  - rewrite (replaceAll_no_start _ _ _ _ Hc), IH. reflexivity.
Qed.

End Occurrences.

(** ** escapeHtml *)

Section EscapeHtml.

Local Ltac cases_unit c :=
  destruct (Z.eqb_spec c 38) as [->|?];
  [| destruct (Z.eqb_spec c 60) as [->|?];
     [| destruct (Z.eqb_spec c 62) as [->|?];
        [| destruct (Z.eqb_spec c 34) as [->|?];
           [| destruct (Z.eqb_spec c 39) as [->|?]]]]].

Local Ltac other_unit :=
  right; split; [reflexivity|];
  match goal with
  | |- no_start ?p _ = true =>
      let p' := eval vm_compute in p in change p with p'
  end;
  unfold no_start; cbn -[Z.eqb];
  repeat match goal with
         | |- context [?k =? ?c] => destruct (Z.eqb_spec k c); [congruence|]
         end;
  reflexivity.

Lemma flat_map_units (s : jsstring) : flat_map (escape_upto 0) s = s.
Proof. induction s as [|c s IH]; simpl; [reflexivity | now rewrite IH]. Qed.

Lemma escape_pass_amp s :
  replaceAll (js "&") (js "&amp;") (flat_map (escape_upto 0) s)
  = flat_map (escape_upto 1) s.
Proof.
  apply replaceAll_blocks; [discriminate|]. intros c. unfold escape_upto.
  cases_unit c; simpl; try (left; split; reflexivity); other_unit.
Qed.

Lemma escape_pass_lt s :
  replaceAll (js "<") (js "&lt;") (flat_map (escape_upto 1) s)
  = flat_map (escape_upto 2) s.
Proof.
  apply replaceAll_blocks; [discriminate|]. intros c. unfold escape_upto.
  cases_unit c; simpl; try (left; split; reflexivity);
    try (right; split; reflexivity); other_unit.
Qed.

Lemma escape_pass_gt s :
  replaceAll (js ">") (js "&gt;") (flat_map (escape_upto 2) s)
  = flat_map (escape_upto 3) s.
Proof.
  apply replaceAll_blocks; [discriminate|]. intros c. unfold escape_upto.
  cases_unit c; simpl; try (left; split; reflexivity);
    try (right; split; reflexivity); other_unit.
Qed.

Lemma escape_pass_quot s :
  replaceAll dq (js "&quot;") (flat_map (escape_upto 3) s)
  = flat_map (escape_upto 4) s.
Proof.
  apply replaceAll_blocks; [discriminate|]. intros c. unfold escape_upto.
  cases_unit c; simpl; try (left; split; reflexivity);
    try (right; split; reflexivity); other_unit.
Qed.

Lemma escape_pass_apos s :
  replaceAll (js "'") (js "&#039;") (flat_map (escape_upto 4) s)
  = flat_map (escape_upto 5) s.
Proof.
  apply replaceAll_blocks; [discriminate|]. intros c. unfold escape_upto.
  cases_unit c; simpl; try (left; split; reflexivity);
    try (right; split; reflexivity); other_unit.
Qed.

(** The five passes together escape each code unit by itself. *)
Lemma escapeHtml_units s : escapeHtml s = flat_map escape_unit s.
Proof.
  unfold escapeHtml. rewrite <- (flat_map_units s) at 1.
  rewrite escape_pass_amp, escape_pass_lt, escape_pass_gt,
    escape_pass_quot, escape_pass_apos.
  reflexivity.
Qed.

Lemma unescape_pass_apos s :
  replaceAll (js "&#039;") (js "'") (flat_map (escape_upto 5) s)
  = flat_map (escape_upto 4) s.
Proof.
  apply replaceAll_blocks; [discriminate|]. intros c. unfold escape_upto.
  cases_unit c; simpl; try (left; split; reflexivity);
    try (right; split; reflexivity); other_unit.
Qed.

Lemma unescape_pass_quot s :
  replaceAll (js "&quot;") dq (flat_map (escape_upto 4) s)
  = flat_map (escape_upto 3) s.
Proof.
  apply replaceAll_blocks; [discriminate|]. intros c. unfold escape_upto.
  cases_unit c; simpl; try (left; split; reflexivity);
    try (right; split; reflexivity); other_unit.
Qed.

Lemma unescape_pass_gt s :
  replaceAll (js "&gt;") (js ">") (flat_map (escape_upto 3) s)
  = flat_map (escape_upto 2) s.
Proof.
  apply replaceAll_blocks; [discriminate|]. intros c. unfold escape_upto.
  cases_unit c; simpl; try (left; split; reflexivity);
    try (right; split; reflexivity); other_unit.
Qed.

Lemma unescape_pass_lt s :
  replaceAll (js "&lt;") (js "<") (flat_map (escape_upto 2) s)
  = flat_map (escape_upto 1) s.
Proof.
  apply replaceAll_blocks; [discriminate|]. intros c. unfold escape_upto.
  cases_unit c; simpl; try (left; split; reflexivity);
    try (right; split; reflexivity); other_unit.
Qed.

Lemma unescape_pass_amp s :
  replaceAll (js "&amp;") (js "&") (flat_map (escape_upto 1) s)
  = flat_map (escape_upto 0) s.
Proof.
  apply replaceAll_blocks; [discriminate|]. intros c. unfold escape_upto.
  cases_unit c; simpl; try (left; split; reflexivity);
    try (right; split; reflexivity); other_unit.
Qed.

Lemma unescapeHtml_escapeHtml s : unescapeHtml (escapeHtml s) = s.
Proof.
  rewrite escapeHtml_units. unfold unescapeHtml.
  change escape_unit with (escape_upto 5).
  rewrite unescape_pass_apos, unescape_pass_quot, unescape_pass_gt,
    unescape_pass_lt, unescape_pass_amp.
  apply flat_map_units.
Qed.

Lemma escape_unit_no_markup c :
  Forall (fun x => is_markup x = false) (escape_unit c).
Proof.
  unfold escape_unit. cases_unit c; simpl;
    repeat (constructor; try reflexivity).
  unfold is_markup.
  repeat match goal with
         | |- context [?c =? ?k] => destruct (Z.eqb_spec c k); [congruence|]
         end.
  reflexivity.
Qed.

Lemma escapeHtml_no_markup s :
  Forall (fun x => is_markup x = false) (escapeHtml s).
Proof.
  rewrite escapeHtml_units. induction s as [|c s IH]; simpl; [constructor|].
  apply Forall_app. split; [apply escape_unit_no_markup | exact IH].
Qed.

Lemma amp_starts_entity_unit c r :
  amp_starts_entity (escape_unit c ++ r) = amp_starts_entity r.
Proof.
  unfold escape_unit. cases_unit c; try reflexivity.
  simpl app. cbn -[Z.eqb existsb].
  destruct (Z.eqb_spec c 38); [congruence | reflexivity].
Qed.

Lemma escapeHtml_amp s : amp_starts_entity (escapeHtml s) = true.
Proof.
  rewrite escapeHtml_units. induction s as [|c s IH]; [reflexivity|].
  simpl. now rewrite amp_starts_entity_unit.
Qed.

(** What [amp_starts_entity] says, position by position. *)
Lemma amp_starts_entity_at (s : jsstring) (i : nat) :
  amp_starts_entity s = true ->
  s !! i = Some 38 ->
  exists e, In e entities /\ prefixb e (drop i s) = true.
Proof.
  revert i. induction s as [|c s IH]; intros i H Hi; [discriminate|].
  cbn [amp_starts_entity] in H. apply andb_prop in H as [H1 H2].
  destruct i as [|i].
  - injection Hi as ->. rewrite Z.eqb_refl in H1.
    apply existsb_exists in H1 as (e & He & Hp). exists e. auto.
  - apply (IH i H2 Hi).
Qed.

End EscapeHtml.

(** C1. For every string [s], [escapeHtml s] holds no [<], [>], double
    quote or single quote; each [&] in it is the first code unit of one of
    the five entities [&amp;], [&lt;], [&gt;], [&quot;], [&#039;]; and
    putting the entities back gives [s] again. *)
Theorem escapeHtml_safe_and_invertible (s : jsstring) :
  Forall (fun c => c <> 60 /\ c <> 62 /\ c <> 34 /\ c <> 39) (escapeHtml s)
  /\ (forall i : nat, escapeHtml s !! i = Some 38 ->
      exists e, In e entities /\ prefixb e (drop i (escapeHtml s)) = true)
  /\ unescapeHtml (escapeHtml s) = s.
Proof.
  split; [|split].
  - eapply Forall_impl; [apply escapeHtml_no_markup|].
    intros c Hc. unfold is_markup in Hc.
    repeat (apply orb_false_elim in Hc as [Hc ?]).
    repeat split; intros ->; discriminate.
  - intros i. apply amp_starts_entity_at, escapeHtml_amp.
  - apply unescapeHtml_escapeHtml.
Qed.

Lemma escapeHtml_safe_and_invertible_witness :
  escapeHtml (js "a&b") !! 1%nat = Some 38
  /\ exists e, In e entities
               /\ prefixb e (drop 1 (escapeHtml (js "a&b"))) = true.
Proof.
  assert (H : escapeHtml (js "a&b") !! 1%nat = Some 38) by reflexivity.
  split; [exact H|].
  destruct (escapeHtml_safe_and_invertible (js "a&b")) as (_ & Hamp & _).
  exact (Hamp 1%nat H).
Defined.

(** ** The theme *)

Section ThemeFacts.

Import Theme.

Lemma strict_eq_Some (a b : jsstring) :
  strict_eq (Some a) b = bool_decide (a = b).
Proof.
  unfold strict_eq. apply bool_decide_ext. split; congruence.
Qed.

Lemma strict_eq_None (b : jsstring) : strict_eq None b = false.
Proof. reflexivity. Qed.

Lemma toggleTheme_attr (p : Page) :
  root (toggleTheme p) !! js "data-theme"
  = Some (if strict_eq (root p !! js "data-theme") (js "dark")
          then js "light" else js "dark").
Proof. unfold toggleTheme. simpl. apply lookup_insert_eq. Qed.

Lemma toggleTheme_stored (p : Page) :
  localStorage (toggleTheme p) !! js "theme"
  = Some (if strict_eq (root p !! js "data-theme") (js "dark")
          then js "light" else js "dark").
Proof. unfold toggleTheme. simpl. apply lookup_insert_eq. Qed.

Lemma toggleTheme_twice_attr (p : Page) :
  root (toggleTheme (toggleTheme p)) !! js "data-theme"
  = Some (if strict_eq (root p !! js "data-theme") (js "dark")
          then js "dark" else js "light").
Proof.
  rewrite toggleTheme_attr, toggleTheme_attr, strict_eq_Some.
  destruct (strict_eq (root p !! js "data-theme") (js "dark")); reflexivity.
Qed.

Lemma toggleTheme_twice_stored (p : Page) :
  localStorage (toggleTheme (toggleTheme p)) !! js "theme"
  = Some (if strict_eq (root p !! js "data-theme") (js "dark")
          then js "dark" else js "light").
Proof.
  rewrite toggleTheme_stored, toggleTheme_attr, strict_eq_Some.
  destruct (strict_eq (root p !! js "data-theme") (js "dark")); reflexivity.
Qed.

Lemma read_by_toggle_twice (p : Page) :
  read_by_toggle (toggleTheme (toggleTheme p)) = read_by_toggle p.
Proof.
  unfold read_by_toggle. rewrite toggleTheme_twice_attr, strict_eq_Some.
  destruct (strict_eq (root p !! js "data-theme") (js "dark")); reflexivity.
Qed.

Lemma shown_toggle_twice_absent (d : theme) (p : Page) :
  root p !! js "data-theme" = None ->
  shown d (toggleTheme p) = Dark
  /\ shown d (toggleTheme (toggleTheme p)) = Light.
Proof.
  intros H. unfold shown.
  rewrite toggleTheme_twice_attr, toggleTheme_attr, H, !strict_eq_Some.
  split; reflexivity.
Qed.

Lemma toggleTheme_twice_from_dark (q : Page) :
  root q !! js "data-theme" = Some (js "dark") ->
  root (toggleTheme q) !! js "data-theme" = Some (js "light")
  /\ root (toggleTheme (toggleTheme q)) = root q
  /\ localStorage (toggleTheme (toggleTheme q))
     = <[js "theme" := js "dark"]> (localStorage q)
  /\ (localStorage q !! js "theme" = Some (js "dark") ->
      toggleTheme (toggleTheme q) = q).
Proof.
  intros Hq.
  assert (E1 : toggleTheme q
               = {| root := <[js "data-theme" := js "light"]> (root q);
                    localStorage :=
                      <[js "theme" := js "light"]> (localStorage q) |}).
  { unfold toggleTheme. rewrite Hq, strict_eq_Some. reflexivity. }
  assert (E2 : toggleTheme (toggleTheme q)
               = {| root := root q;
                    localStorage :=
                      <[js "theme" := js "dark"]> (localStorage q) |}).
  { rewrite E1. unfold toggleTheme. simpl.
    rewrite lookup_insert_eq, strict_eq_Some, !insert_insert_eq. simpl.
    rewrite (insert_id (root q) _ _ Hq). reflexivity. }
  rewrite E2, E1. simpl.
  split; [apply lookup_insert_eq|]. split; [reflexivity|].
  split; [reflexivity|].
  intros Hs. rewrite (insert_id (localStorage q) _ _ Hs).
  destruct q. reflexivity.
Qed.

(** C2, as the code has it. From a page without the theme attribute the
    first toggle sets the attribute and the stored value to [dark] and the
    second sets both to [light]. As the toggle reads a page, every value
    but [dark] being light and the absent one too, the cycle is light,
    dark, light, and the theme read after the two toggles is the one read
    before them. The page shows its original theme again exactly when a
    page without the attribute shows light. From a page with the
    attribute at [dark], one toggle gives [light], and two toggles give
    back the attributes of the root as they were and leave the stored
    value at [dark], the other stored keys untouched; the whole page is
    the one before them when [dark] was the stored value too. *)
Theorem toggleTheme_twice_from_absent (p : Page) :
  root p !! js "data-theme" = None ->
  root (toggleTheme p) !! js "data-theme" = Some (js "dark")
  /\ localStorage (toggleTheme p) !! js "theme" = Some (js "dark")
  /\ root (toggleTheme (toggleTheme p)) !! js "data-theme" = Some (js "light")
  /\ localStorage (toggleTheme (toggleTheme p)) !! js "theme"
     = Some (js "light")
  /\ (read_by_toggle p = Light
      /\ read_by_toggle (toggleTheme p) = Dark
      /\ read_by_toggle (toggleTheme (toggleTheme p)) = Light)
  /\ (forall d, returns_after_two d p <-> d = Light)
  /\ (forall q, root q !! js "data-theme" = Some (js "dark") ->
      root (toggleTheme q) !! js "data-theme" = Some (js "light")
      /\ root (toggleTheme (toggleTheme q)) = root q
      /\ localStorage (toggleTheme (toggleTheme q))
         = <[js "theme" := js "dark"]> (localStorage q)
      /\ (localStorage q !! js "theme" = Some (js "dark") ->
          toggleTheme (toggleTheme q) = q)).
Proof.
  intros H.
  rewrite toggleTheme_attr, toggleTheme_stored, toggleTheme_twice_attr,
    toggleTheme_twice_stored, H.
  split; [reflexivity|]. split; [reflexivity|].
  split; [reflexivity|]. split; [reflexivity|].
  split; [|split].
  - unfold read_by_toggle.
    rewrite toggleTheme_twice_attr, toggleTheme_attr, H, !strict_eq_Some.
    repeat split.
  - intros d. unfold returns_after_two.
    destruct (shown_toggle_twice_absent d p H) as [_ ->].
    unfold shown. rewrite H. simpl. split; congruence.
  - apply toggleTheme_twice_from_dark.
Qed.

Lemma toggleTheme_twice_from_absent_witness :
  let dark := {| root := {[ js "data-theme" := js "dark" ]};
                 localStorage := ∅ |} in
  root fresh !! js "data-theme" = None
  /\ root (toggleTheme (toggleTheme fresh)) !! js "data-theme"
     = Some (js "light")
  /\ read_by_toggle (toggleTheme (toggleTheme fresh)) = read_by_toggle fresh
  /\ root dark !! js "data-theme" = Some (js "dark")
  /\ root (toggleTheme (toggleTheme dark)) = root dark
  /\ localStorage (toggleTheme (toggleTheme dark)) !! js "theme"
     = Some (js "dark").
Proof.
  intros dark.
  assert (H : root fresh !! js "data-theme" = None) by reflexivity.
  assert (Hd : root dark !! js "data-theme" = Some (js "dark"))
    by reflexivity.
  split; [exact H|].
  destruct (toggleTheme_twice_from_absent fresh H)
    as (_ & _ & H3 & _ & (H5 & _ & H7) & _ & H9).
  split; [exact H3|]. split; [now rewrite H7, H5|].
  split; [exact Hd|].
  destruct (H9 dark Hd) as (_ & Hr & Hs & _).
  split; [exact Hr|]. rewrite Hs. reflexivity.
Defined.

(** C2, as it is worded, fails on the page with no attribute and nothing
    stored: the attribute goes from absent to [dark] and then to [light],
    so that whatever theme a page without the attribute shows, the page
    does not go dark, light, dark; and the page after the two toggles is
    not the page before them. *)
Lemma toggleTheme_twice_not_dark_light_dark :
  root (toggleTheme fresh) !! js "data-theme" = Some (js "dark")
  /\ root (toggleTheme (toggleTheme fresh)) !! js "data-theme"
     = Some (js "light")
  /\ (forall d, ~ dark_light_dark d fresh)
  /\ toggleTheme (toggleTheme fresh) <> fresh.
Proof.
  assert (H : root fresh !! js "data-theme" = None) by reflexivity.
  split; [rewrite toggleTheme_attr, H; reflexivity|].
  split; [rewrite toggleTheme_twice_attr, H; reflexivity|].
  split.
  - intros d (_ & H2 & _).
    destruct (shown_toggle_twice_absent d fresh H) as [E _].
    rewrite E in H2. discriminate.
  - intros E. apply (f_equal (fun q => root q !! js "data-theme")) in E.
    rewrite toggleTheme_twice_attr in E. discriminate E.
Qed.

(** C9. [applyStoredTheme] sets the theme attribute of the document to the
    stored value when that value is exactly [light] or exactly [dark], and
    touches nothing else; for every other stored value, and when nothing
    is stored, it leaves the page as it is. The function is total: there
    is no stored value on which it fails. *)
Theorem applyStoredTheme_exactly_light_or_dark (p : Page) :
  let saved := localStorage p !! js "theme" in
  ((saved = Some (js "light") \/ saved = Some (js "dark")) ->
   root (applyStoredTheme p) !! js "data-theme" = saved
   /\ (forall k, k <> js "data-theme" ->
       root (applyStoredTheme p) !! k = root p !! k)
   /\ localStorage (applyStoredTheme p) = localStorage p)
  /\ (~ (saved = Some (js "light") \/ saved = Some (js "dark")) ->
     applyStoredTheme p = p).
Proof.
  intros saved. unfold applyStoredTheme. fold saved. unfold strict_eq.
  split.
  - intros Hs.
    assert (E : bool_decide (saved = Some (js "light"))
                || bool_decide (saved = Some (js "dark")) = true).
    { destruct Hs as [Hs|Hs]; rewrite Hs.
      - reflexivity.
      - rewrite (bool_decide_eq_true_2 _ eq_refl). apply orb_true_r. }
    rewrite E. destruct saved as [v|] eqn:Ev; [|destruct Hs; discriminate].
    simpl. split; [apply lookup_insert_eq|].
    split; [|reflexivity].
    intros k Hk. apply lookup_insert_ne. congruence.
  - intros Hs.
    destruct (bool_decide (saved = Some (js "light"))) eqn:E1.
    { apply bool_decide_eq_true_1 in E1. tauto. }
    destruct (bool_decide (saved = Some (js "dark"))) eqn:E2.
    { apply bool_decide_eq_true_1 in E2. tauto. }
    reflexivity.
Qed.

Lemma applyStoredTheme_exactly_light_or_dark_witness :
  root (applyStoredTheme
          {| root := ∅; localStorage := {[ js "theme" := js "dark" ]} |})
    !! js "data-theme" = Some (js "dark")
  /\ applyStoredTheme
       {| root := ∅; localStorage := {[ js "theme" := js "Dark" ]} |}
     = {| root := ∅; localStorage := {[ js "theme" := js "Dark" ]} |}.
Proof.
  split.
  - destruct (applyStoredTheme_exactly_light_or_dark
                {| root := ∅; localStorage := {[ js "theme" := js "dark" ]} |})
      as [H _].
    destruct H as (H & _).
    + right. vm_compute. reflexivity.
    + rewrite H. vm_compute. reflexivity.
  - destruct (applyStoredTheme_exactly_light_or_dark
                {| root := ∅; localStorage := {[ js "theme" := js "Dark" ]} |})
      as [_ H].
    apply H. vm_compute. intros [E|E]; discriminate E.
Defined.

End ThemeFacts.

(** ** The drawer *)

Section DrawerFacts.

Import Drawer.

Lemma closeDrawer_closed (d : Dom) (h : bool) :
  drawer d = Some h -> is_closed (closeDrawer d).
Proof.
  intros H. unfold is_closed, closeDrawer, set_expanded. rewrite H. simpl.
  repeat split. destruct (menuToggle d); congruence.
Qed.

Lemma openDrawer_opened (d : Dom) (h : bool) :
  drawer d = Some h -> is_opened (openDrawer d).
Proof.
  intros H. unfold is_opened, openDrawer, set_expanded. rewrite H. simpl.
  repeat split. destruct (menuToggle d); congruence.
Qed.

Lemma closeDrawer_openDrawer (d : Dom) :
  is_closed d -> closeDrawer (openDrawer d) = d.
Proof.
  destruct d as [dr mt mc ov]. unfold is_closed. simpl.
  intros (-> & Hmt & ->). unfold openDrawer, closeDrawer, set_expanded. simpl.
  destruct mt as [a|]; [|reflexivity].
  rewrite (Hmt a eq_refl). reflexivity.
Qed.

Lemma handle_closing (e : event) (d : Dom) :
  is_open d -> closing e d -> handle e d = closeDrawer d.
Proof.
  unfold is_open. intros Ho Hc. destruct e; simpl in *.
  - contradiction.
  - rewrite Hc. reflexivity.
  - rewrite Ho, Hc. reflexivity.
  - rewrite Ho. unfold hasHidden. rewrite Ho. subst key.
    rewrite (bool_decide_eq_true_2 _ eq_refl). reflexivity.
  - unfold wide. destruct (Z.leb_spec 981 width); [reflexivity | lia].
Qed.

(** C8. While the drawer is open, a press of the close button, a click
    whose target is the drawer container itself, an Escape key press and a
    resize to 981px or more each run [closeDrawer], which leaves the drawer
    hidden, the toggle's [aria-expanded] at [false] and the page scrolling
    again; opening a closed drawer shows it, sets [aria-expanded] to [true]
    and stops the scrolling, and closing after opening gives the closed
    state back. *)
Theorem drawer_closes (e : event) (d : Dom) :
  (is_open d -> closing e d ->
   handle e d = closeDrawer d /\ is_closed (handle e d))
  /\ (is_closed d ->
     is_opened (openDrawer d) /\ closeDrawer (openDrawer d) = d).
Proof.
  split.
  - intros Ho Hc. rewrite (handle_closing e d Ho Hc).
    split; [reflexivity | exact (closeDrawer_closed d false Ho)].
  - intros Hc. split.
    + destruct Hc as (Hc & _). exact (openDrawer_opened d true Hc).
    + exact (closeDrawer_openDrawer d Hc).
Qed.

Lemma drawer_closes_witness :
  let opened := {| drawer := Some false;
                   menuToggle := Some (Some (js "true"));
                   menuClose := true;
                   overflow := js "hidden" |} in
  let closed := {| drawer := Some true;
                   menuToggle := Some (Some (js "false"));
                   menuClose := true;
                   overflow := [] |} in
  handle (KeyDown (js "Escape")) opened = closed
  /\ handle (Resize 981) opened = closed
  /\ closeDrawer (openDrawer closed) = closed.
Proof.
  intros opened closed.
  assert (Ho : is_open opened) by reflexivity.
  assert (Hc : is_closed closed).
  { repeat split. simpl. intros a Ha. injection Ha as <-. reflexivity. }
  split; [|split].
  - destruct (drawer_closes (KeyDown (js "Escape")) opened) as [H _].
    destruct (H Ho eq_refl) as [-> _]. reflexivity.
  - destruct (drawer_closes (Resize 981) opened) as [H _].
    destruct (H Ho ltac:(simpl; lia)) as [-> _]. reflexivity.
  - destruct (drawer_closes ToggleClick closed) as [_ H].
    destruct (H Hc) as [_ ->]. reflexivity.
Defined.

End DrawerFacts.

(** ** The hover menu *)

Section HoverMenuFacts.

Import HoverMenu.
Local Open Scope nat_scope.

Lemma clearCloseTimer_fields (s : state) :
  desktop (clearCloseTimer s) = desktop s
  /\ active (clearCloseTimer s) = active s
  /\ opened (clearCloseTimer s) = opened s
  /\ next_handle (clearCloseTimer s) = next_handle s
  /\ now (clearCloseTimer s) = now s
  /\ closeTimer (clearCloseTimer s) = None.
Proof.
  unfold clearCloseTimer. destruct (closeTimer s) eqn:E; simpl; auto 10.
Qed.

(** After [clearCloseTimer] no timer is started. *)
Lemma clearCloseTimer_pending (s : state) :
  inv s -> pending (clearCloseTimer s) = [].
Proof.
  intros [_ Ht Hone _]. unfold clearCloseTimer.
  destruct (pending s) as [|t [|t' l]] eqn:Ep; simpl in Hone; [| |lia].
  - destruct (closeTimer s); simpl; rewrite ?Ep; reflexivity.
  - rewrite (Ht t (or_introl eq_refl)). simpl. rewrite Ep. simpl.
    rewrite Pos.eqb_refl. reflexivity.
Qed.

Lemma inv_clearCloseTimer (s : state) : inv s -> inv (clearCloseTimer s).
Proof.
  intros H. pose proof (clearCloseTimer_pending s H) as Hp.
  destruct (clearCloseTimer_fields s) as (Hd & Ha & Ho & _ & _ & _).
  destruct H as [H1 H2 H3 H4].
  split; rewrite ?Hp, ?Ha, ?Ho, ?Hd; simpl; auto; try lia.
Qed.

Lemma inv_doClose (s : state) : inv s -> inv (doClose s).
Proof.
  intros [H1 H2 H3 H4]. unfold doClose.
  destruct (active s) as [a|] eqn:Ea; [|split; rewrite ?Ea; auto].
  split; simpl; auto.
  - intros x Hx. apply elem_of_difference in Hx as [Hx Hne].
    apply H1 in Hx. injection Hx as ->. set_solver.
  - intros x Hx. apply elem_of_difference in Hx as [Hx _]. eauto.
Qed.

Lemma doClose_opened (s : state) : inv s -> opened (doClose s) = ∅.
Proof.
  intros [H1 _ _ _]. unfold doClose.
  destruct (active s) as [a|] eqn:Ea; simpl.
  - apply set_eq. intros x. split; [|set_solver].
    intros Hx. apply elem_of_difference in Hx as [Hx Hne].
    apply H1 in Hx. injection Hx as ->. set_solver.
  - apply set_eq. intros x. split; [|set_solver].
    intros Hx. apply H1 in Hx. discriminate.
Qed.

Lemma inv_closeActive (b : bool) (s : state) : inv s -> inv (closeActive b s).
Proof.
  intros H. unfold closeActive.
  pose proof (clearCloseTimer_pending s H) as Hp.
  apply inv_clearCloseTimer in H.
  destruct b; [apply inv_doClose, H|].
  destruct H as [H1 H2 H3 H4]. unfold setTimeout.
  split; simpl; rewrite ?Hp; simpl; auto.
  intros t [<-|[]]. reflexivity.
Qed.

Lemma inv_openItem (li : item) (s : state) :
  inv s -> desktop s = true -> inv (openItem li s).
Proof.
  intros H Hd. unfold openItem.
  pose proof (clearCloseTimer_pending s H) as Hp.
  destruct (clearCloseTimer_fields s) as (Hd' & _).
  apply inv_clearCloseTimer in H. rewrite <- Hd' in Hd.
  destruct H as [H1 H2 H3 H4].
  set (s1 := clearCloseTimer s) in *.
  destruct (active s1) as [a|] eqn:Ea;
    [destruct (bool_decide (a ≠ li)) eqn:Eb|];
    split; simpl; rewrite ?Hp; simpl; auto; try contradiction.
  - intros x Hx. apply elem_of_union in Hx as [Hx|Hx]; [set_solver|].
    apply elem_of_difference in Hx as [Hx Hne]. apply H1 in Hx.
    injection Hx as ->. set_solver.
  - intros x Hx. apply elem_of_union in Hx as [Hx|Hx]; [set_solver|].
    apply H1 in Hx. injection Hx as <-.
    apply bool_decide_eq_false_1 in Eb. f_equal.
    destruct (decide (a = li)); [congruence | contradiction].
  - intros x Hx. apply elem_of_union in Hx as [Hx|Hx]; [set_solver|].
    apply H1 in Hx. discriminate.
Qed.

Lemma inv_clearTimeout (h : positive) (s : state) :
  inv s -> inv (clearTimeout h s).
Proof.
  intros [H1 H2 H3 H4]. split; simpl; auto.
  - intros t Ht. apply filter_In in Ht as [Ht _]. auto.
  - etransitivity; [apply filter_length_le | exact H3].
Qed.

(** The change listener does not look at the media query. *)
Lemma closeActive_set_desktop (b : bool) (s : state) :
  closeActive true (set_desktop b s) = set_desktop b (closeActive true s).
Proof.
  unfold closeActive, clearCloseTimer, doClose. simpl.
  destruct (closeTimer s); simpl; destruct (active s); reflexivity.
Qed.

Lemma inv_step (e : event) (s : state) : inv s -> inv (step e s).
Proof.
  intros H. destruct e; cbn [step].
  - destruct (desktop s) eqn:Hd; [apply inv_openItem; assumption | exact H].
  - destruct (desktop s); cbn [negb]; [|exact H].
    destruct to_submenu; [exact H | apply inv_closeActive, H].
  - destruct (desktop s) eqn:Hd; [|exact H].
    apply inv_openItem; [apply inv_clearCloseTimer, H|].
    destruct (clearCloseTimer_fields s) as (-> & _). exact Hd.
  - destruct (desktop s); cbn [negb]; [|exact H].
    destruct to_item; [exact H | apply inv_closeActive, H].
  - destruct (desktop s); cbn [negb]; [|exact H].
    destruct in_menubar; [exact H | apply inv_closeActive, H].
  - destruct (desktop s); cbn [negb]; [|exact H].
    destruct (bool_decide (key = js "Escape"));
      [apply inv_closeActive, H | exact H].
  - rewrite closeActive_set_desktop.
    pose proof (doClose_opened _ (inv_clearCloseTimer s H)) as Ho.
    destruct (inv_closeActive true s H) as [H1 H2 H3 H4].
    unfold closeActive in *. split; simpl; auto.
    intros x Hx. rewrite Ho in Hx. set_solver.
  - destruct H as [H1 H2 H3 H4]. split; simpl; auto.
  - destruct (due h s); [|exact H]. apply inv_doClose, inv_clearTimeout, H.
Qed.

Lemma inv_setup (mq : bool) (h0 : positive) (t0 : nat) : inv (setup mq h0 t0).
Proof.
  split; simpl; auto; set_solver.
Qed.

Lemma inv_run (es : list event) (s : state) : inv s -> inv (run es s).
Proof.
  revert s. induction es as [|e es IH]; intros s H; [exact H|].
  apply IH, inv_step, H.
Qed.

Lemma inv_reachable (s : state) : reachable s -> inv s.
Proof. intros (es & mq & h0 & t0 & ->). apply inv_run, inv_setup. Qed.

Lemma openItem_opened (li : item) (s : state) :
  inv s -> opened (openItem li s) = {[li]}.
Proof.
  intros H. apply inv_clearCloseTimer in H. destruct H as [H1 _ _ _].
  unfold openItem. set (s1 := clearCloseTimer s) in *.
  apply set_eq. intros x. split; [|destruct (active s1) as [a|];
    [destruct (bool_decide (a ≠ li))|]; simpl; set_solver].
  destruct (active s1) as [a|] eqn:Ea;
    [destruct (bool_decide (a ≠ li)) eqn:Eb|]; simpl; intros Hx;
    apply elem_of_union in Hx as [Hx|Hx]; try exact Hx.
  - apply elem_of_difference in Hx as [Hx Hne]. apply H1 in Hx.
    injection Hx as ->. set_solver.
  - apply H1 in Hx. injection Hx as <-.
    apply bool_decide_eq_false_1 in Eb.
    destruct (decide (a = li)); [set_solver | contradiction].
  - apply H1 in Hx. discriminate.
Qed.

Lemma openItem_pending (li : item) (s : state) :
  inv s -> pending (openItem li s) = [].
Proof.
  intros H. pose proof (clearCloseTimer_pending s H) as Hp.
  unfold openItem. set (s1 := clearCloseTimer s) in *.
  destruct (active s1) as [a|]; [destruct (bool_decide (a ≠ li))|];
    simpl; exact Hp.
Qed.

Lemma openItem_active (li : item) (s : state) :
  active (openItem li s) = Some li.
Proof. reflexivity. Qed.

Lemma closeActive_false_pending (s : state) :
  inv s ->
  pending (closeActive false s) = [(next_handle s, now s + close_delay)]
  /\ closeTimer (closeActive false s) = Some (next_handle s).
Proof.
  intros H. pose proof (clearCloseTimer_pending s H) as Hp.
  destruct (clearCloseTimer_fields s) as (_ & _ & _ & Hn & Ht & _).
  unfold closeActive, setTimeout. simpl. rewrite Hp, Hn, Ht.
  split; reflexivity.
Qed.

Lemma closeActive_true_pending (s : state) :
  inv s -> pending (closeActive true s) = [].
Proof.
  intros H. pose proof (clearCloseTimer_pending s H) as Hp.
  unfold closeActive, doClose.
  destruct (active (clearCloseTimer s)); simpl; exact Hp.
Qed.

Lemma clearCloseTimer_idem (s : state) :
  clearCloseTimer (clearCloseTimer s) = clearCloseTimer s.
Proof.
  unfold clearCloseTimer at 1.
  destruct (clearCloseTimer_fields s) as (_ & _ & _ & _ & _ & ->).
  reflexivity.
Qed.

Lemma closeActive_false_fields (s : state) :
  desktop (closeActive false s) = desktop s
  /\ active (closeActive false s) = active s
  /\ opened (closeActive false s) = opened s
  /\ now (closeActive false s) = now s.
Proof.
  destruct (clearCloseTimer_fields s) as (Hd & Ha & Ho & _ & Hn & _).
  unfold closeActive, setTimeout. simpl. auto.
Qed.

Lemma not_desktop_none_open (s : state) :
  inv s -> desktop s = false -> opened s = ∅.
Proof.
  intros [_ _ _ H4] Hd. apply set_eq. intros x. split; [|set_solver].
  intros Hx. apply H4 in Hx. congruence.
Qed.

(** C3. After every sequence of events at most one item carries
    [is-open]; [openItem li] leaves [li] as the only item carrying it,
    whichever item carried it before, with no timer started: the marker of
    the item open before goes in that very step, not through the deferred
    close. So do the two listeners that open an item. *)
Theorem at_most_one_item_open
  (es : list event) (mq : bool) (h0 : positive) (t0 : nat) :
  let s := run es (setup mq h0 t0) in
  (forall a b, a ∈ opened s -> b ∈ opened s -> a = b)
  /\ (forall li, opened (openItem li s) = {[li]}
                 /\ active (openItem li s) = Some li
                 /\ pending (openItem li s) = [])
  /\ (forall li, opened (step (ItemEnter li) s)
                 = if desktop s then {[li]} else ∅)
  /\ (forall li, opened (step (SubmenuEnter li) s)
                 = if desktop s then {[li]} else ∅).
Proof.
  intros s. assert (H : inv s) by apply inv_run, inv_setup.
  split; [|split; [|split]].
  - intros a b Ha Hb. destruct H as [H1 _ _ _].
    apply H1 in Ha, Hb. congruence.
  - intros li. split; [apply openItem_opened, H|].
    split; [reflexivity | apply openItem_pending, H].
  - intros li. cbn [step]. destruct (desktop s) eqn:Hd.
    + apply openItem_opened, H.
    + apply not_desktop_none_open; assumption.
  - intros li. cbn [step]. destruct (desktop s) eqn:Hd.
    + apply openItem_opened, inv_clearCloseTimer, H.
    + apply not_desktop_none_open; assumption.
Qed.

Lemma at_most_one_item_open_witness :
  let s := run [ItemEnter 0; ItemEnter 1] (setup true 1%positive 0) in
  1 ∈ opened s /\ forall b, b ∈ opened s -> 1 = b.
Proof.
  intros s.
  assert (Hin : 1 ∈ opened s) by (unfold s; simpl; set_solver).
  split; [exact Hin|].
  destruct (at_most_one_item_open [ItemEnter 0; ItemEnter 1]
              true 1%positive 0) as (H & _).
  intros b Hb. exact (H 1 b Hin Hb).
Defined.

(** C4. After every sequence of events at most one deferred-close timer
    is started and not yet run or cancelled. [clearCloseTimer] leaves none;
    [closeActive] and [openItem] begin with it, so that a deferred close
    leaves its own timer only, due 120ms later, and an opening or an
    immediate close leaves none. *)
Theorem at_most_one_close_timer
  (es : list event) (mq : bool) (h0 : positive) (t0 : nat) :
  let s := run es (setup mq h0 t0) in
  length (pending s) <= 1
  /\ pending (clearCloseTimer s) = []
  /\ (forall b, closeActive b s = closeActive b (clearCloseTimer s))
  /\ (forall li, openItem li s = openItem li (clearCloseTimer s))
  /\ pending (closeActive false s) = [(next_handle s, now s + close_delay)]
  /\ pending (closeActive true s) = []
  /\ (forall li, pending (openItem li s) = []).
Proof.
  intros s. assert (H : inv s) by apply inv_run, inv_setup.
  split; [apply (inv_one s H)|].
  split; [apply clearCloseTimer_pending, H|].
  split; [intros b; unfold closeActive; now rewrite clearCloseTimer_idem|].
  split; [intros li; unfold openItem; now rewrite clearCloseTimer_idem|].
  split; [apply closeActive_false_pending, H|].
  split; [apply closeActive_true_pending, H|].
  intros li. apply openItem_pending, H.
Qed.

Lemma open_item_is_active (s : state) (li : item) :
  inv s -> li ∈ opened s -> desktop s = true /\ active s = Some li.
Proof. intros [H1 _ _ H4] Hli. split; eauto. Qed.

Lemma elapse_fields (d : nat) (s : state) :
  pending (step (Elapse d) s) = pending s
  /\ opened (step (Elapse d) s) = opened s
  /\ active (step (Elapse d) s) = active s
  /\ now (step (Elapse d) s) = now s + d.
Proof. simpl. auto. Qed.

Lemma doClose_active (s : state) : active (doClose s) = None.
Proof. unfold doClose. destruct (active s) eqn:E; [reflexivity | exact E]. Qed.

Lemma doClose_pending (s : state) : pending (doClose s) = pending s.
Proof. unfold doClose. destruct (active s); reflexivity. Qed.

(** A timer that is not started does not run. *)
Lemma timer_cancelled (h : positive) (d : nat) (s : state) :
  pending s = [] ->
  step (TimerFires h) (step (Elapse d) s) = step (Elapse d) s.
Proof.
  intros Hp. cbn [step]. unfold due. simpl. rewrite Hp. reflexivity.
Qed.

(** The only timer started, before and from its time due. *)
Lemma timer_early (h : positive) (t d : nat) (s : state) :
  pending s = [(h, t)] -> now s + d < t ->
  step (TimerFires h) (step (Elapse d) s) = step (Elapse d) s.
Proof.
  intros Hp Hd. cbn [step]. unfold due. simpl. rewrite Hp. simpl.
  destruct (Nat.leb_spec t (now s + d)); [lia|].
  rewrite andb_false_r. reflexivity.
Qed.

Lemma timer_runs (h : positive) (t d : nat) (s : state) :
  inv s -> pending s = [(h, t)] -> t <= now s + d ->
  let s' := step (TimerFires h) (step (Elapse d) s) in
  active s' = None /\ opened s' = ∅ /\ pending s' = [].
Proof.
  intros H Hp Hd s'.
  assert (Hi : inv (clearTimeout h (step (Elapse d) s)))
    by apply inv_clearTimeout, inv_step, H.
  assert (E : s' = doClose (clearTimeout h (step (Elapse d) s))).
  { unfold s'. cbn [step]. unfold due. simpl. rewrite Hp. simpl.
    rewrite Pos.eqb_refl.
    destruct (Nat.leb_spec t (now s + d)); [reflexivity | lia]. }
  rewrite E. split; [|split].
  - apply doClose_active.
  - apply doClose_opened, Hi.
  - rewrite doClose_pending. simpl. rewrite Hp. simpl.
    rewrite Pos.eqb_refl. reflexivity.
Qed.

(** C7. An item [li] that is open, in a state the page can be in (the
    media query then matches, see [inv], so that the listeners go past
    their guard):
    when the pointer leaves it for its own submenu the listener changes
    nothing, so that no close is scheduled and the item stays open; when
    the pointer leaves it for anywhere else, one timer is started, due
    120ms later, and the item is still open. That timer does not run
    before the 120ms have passed; when it runs, no item is active or open
    any more; and after the pointer has come back to the item or to its
    submenu the timer is cancelled, never runs, and the item stays open. *)
Theorem leaving_open_item (s : state) (li : item) :
  reachable s -> li ∈ opened s ->
  step (ItemLeave li true) s = s
  /\ (let s1 := step (ItemLeave li false) s in
      let h := next_handle s in
      pending s1 = [(h, now s + 120)]
      /\ closeTimer s1 = Some h
      /\ (forall d, li ∈ opened (step (Elapse d) s1))
      /\ (forall d, d < 120 ->
          step (TimerFires h) (step (Elapse d) s1) = step (Elapse d) s1)
      /\ (forall d, 120 <= d ->
          let s2 := step (TimerFires h) (step (Elapse d) s1) in
          active s2 = None /\ opened s2 = ∅ /\ pending s2 = [])
      /\ (forall e, e = ItemEnter li \/ e = SubmenuEnter li ->
          let s3 := step e s1 in
          pending s3 = []
          /\ opened s3 = {[li]}
          /\ (forall d,
              step (TimerFires h) (step (Elapse d) s3) = step (Elapse d) s3
              /\ li ∈ opened (step (Elapse d) s3)))).
Proof.
  intros Hr Hli. pose proof (inv_reachable s Hr) as H.
  destruct (open_item_is_active s li H Hli) as [Hd Ha].
  split; [cbn [step]; rewrite Hd; reflexivity|].
  intros s1 h.
  assert (E1 : s1 = closeActive false s).
  { unfold s1. cbn [step]. rewrite Hd. reflexivity. }
  assert (H1 : inv s1) by (rewrite E1; apply inv_closeActive, H).
  destruct (closeActive_false_pending s H) as [Hp Hc].
  destruct (closeActive_false_fields s) as (Hd1 & Ha1 & Ho1 & Hn1).
  rewrite <- E1 in Hp, Hc, Hd1, Ha1, Ho1, Hn1. fold h in Hp, Hc.
  split; [exact Hp|]. split; [exact Hc|]. split; [|split; [|split]].
  - intros d. simpl. rewrite Ho1. exact Hli.
  - intros d Hlt. apply (timer_early h (now s + 120) d s1 Hp). lia.
  - intros d Hle. apply (timer_runs h (now s + 120) d s1 H1 Hp). lia.
  - intros e He s3.
    assert (E3 : pending s3 = [] /\ opened s3 = {[li]}).
    { unfold s3. destruct He as [-> | ->]; cbn [step]; rewrite Hd1, Hd.
      - split; [apply openItem_pending | apply openItem_opened]; exact H1.
      - split; [apply openItem_pending | apply openItem_opened];
          apply inv_clearCloseTimer, H1. }
    destruct E3 as [Hp3 Ho3]. split; [exact Hp3|]. split; [exact Ho3|].
    intros d. split; [apply timer_cancelled, Hp3|].
    simpl. rewrite Ho3. set_solver.
Qed.

Lemma leaving_open_item_witness :
  let s := run [ItemEnter 0] (setup true 1%positive 0) in
  0 ∈ opened s
  /\ step (ItemLeave 0 true) s = s
  /\ pending (step (ItemLeave 0 false) s) = [(1%positive, 120)].
Proof.
  intros s.
  assert (Hr : reachable s).
  { exists [ItemEnter 0], true, 1%positive, 0. reflexivity. }
  assert (Hli : 0 ∈ opened s).
  { unfold s. simpl. set_solver. }
  split; [exact Hli|].
  destruct (leaving_open_item s 0 Hr Hli) as (H1 & H2 & _).
  split; [exact H1 | exact H2].
Defined.

End HoverMenuFacts.

(** ** The table of contents *)

Section TocFacts.

Import Toc.

Variable toLowerCase : jsstring -> jsstring.

(** On a text of ASCII code units [toLowerCase] maps the letters [A-Z] to
    [a-z] and leaves the rest. *)
Hypothesis toLowerCase_ascii :
  forall s, forallb is_ascii s = true -> toLowerCase s = List.map lower_ascii s.

Lemma replace_class_empty_filter (C : Z -> bool) (s : jsstring) :
  replace_class_empty C s = List.filter (fun c => negb (C c)) s.
Proof.
  induction s as [|c s IH]; simpl; [reflexivity|].
  destruct (C c); simpl; now rewrite IH.
Qed.

Lemma strip_keeps (s : jsstring) :
  replace_class_empty not_word_space_hyphen s = keep_word_space_hyphen s.
Proof.
  rewrite replace_class_empty_filter. unfold keep_word_space_hyphen.
  apply filter_ext. intros c. unfold not_word_space_hyphen.
  apply negb_involutive.
Qed.

(** The greedy matches of [/\s+/g] are the runs of white space. *)
Lemma replace_plus_collapse (s : jsstring) :
  replace_plus is_space (js "-") s = collapse_runs false s
  /\ replace_plus_skip is_space (js "-") s = collapse_runs true s.
Proof.
  induction s as [|c s [IH1 IH2]]; [split; reflexivity|].
  cbn [replace_plus replace_plus_skip collapse_runs].
  destruct (is_space c); rewrite ?IH1, ?IH2; split; reflexivity.
Qed.

Lemma dropWhile_strip_leading (s : jsstring) :
  dropWhile is_space s = strip_leading s.
Proof.
  induction s as [|c s IH]; simpl; [reflexivity|].
  destruct (is_space c); [exact IH | reflexivity].
Qed.

Lemma dropWhile_snoc (f : Z -> bool) (l : jsstring) (c : Z) :
  dropWhile f (l ++ [c])
  = match dropWhile f l with
    | [] => if f c then [] else [c]
    | _ :: _ => dropWhile f l ++ [c]
    end.
Proof.
  induction l as [|x l IH]; simpl; [reflexivity|].
  destruct (f x); [exact IH | reflexivity].
Qed.

(** Reversing, dropping the leading white space and reversing again, as
    the model of [trim] does, removes the trailing white space. *)
Lemma rev_dropWhile_rev (s : jsstring) :
  rev (dropWhile is_space (rev s)) = strip_trailing s.
Proof.
  induction s as [|c s IH]; [reflexivity|].
  cbn [rev strip_trailing]. rewrite dropWhile_snoc, <- IH.
  destruct (dropWhile is_space (rev s)) as [|d D] eqn:E.
  - simpl. destruct (is_space c); reflexivity.
  - rewrite rev_app_distr. cbn [rev app].
    destruct (rev D ++ [d]) as [|y t] eqn:E2; [|reflexivity].
    destruct (rev D); discriminate E2.
Qed.

Lemma trim_trimmed (s : jsstring) : trim s = trimmed s.
Proof.
  unfold trim, trimmed. now rewrite rev_dropWhile_rev, dropWhile_strip_leading.
Qed.

Lemma strip_leading_split (s : jsstring) :
  exists l, s = l ++ strip_leading s /\ forallb is_space l = true.
Proof.
  induction s as [|c s (l & E & Hl)]; [exists []; split; reflexivity|].
  simpl. destruct (is_space c) eqn:Ec.
  - exists (c :: l). simpl. rewrite Ec, Hl. split; [now f_equal | reflexivity].
  - exists []. split; reflexivity.
Qed.

Lemma strip_leading_head (s : jsstring) c t :
  strip_leading s = c :: t -> is_space c = false.
Proof.
  induction s as [|x s IH]; simpl; [discriminate|].
  destruct (is_space x) eqn:Ex; [exact IH|].
  intros E. injection E as <- _. exact Ex.
Qed.

Lemma strip_trailing_split (s : jsstring) :
  exists r, s = strip_trailing s ++ r /\ forallb is_space r = true.
Proof.
  induction s as [|c s (r & E & Hr)]; [exists []; split; reflexivity|].
  cbn [strip_trailing]. destruct (strip_trailing s) as [|d T] eqn:ET.
  - simpl in E. subst s. destruct (is_space c) eqn:Ec.
    + exists (c :: r). simpl. rewrite Ec, Hr. split; reflexivity.
    + exists r. split; [reflexivity | exact Hr].
  - exists r. split; [|exact Hr]. rewrite E at 1. reflexivity.
Qed.

Lemma strip_trailing_last (s : jsstring) c t :
  strip_trailing s = t ++ [c] -> is_space c = false.
Proof.
  revert t. induction s as [|x s IH]; intros t; cbn [strip_trailing].
  - destruct t; discriminate.
  - destruct (strip_trailing s) as [|d T] eqn:ET.
    + destruct (is_space x) eqn:Ex; [destruct t; discriminate|].
      destruct t as [|y t]; [|destruct t; discriminate].
      intros E. injection E as <-. exact Ex.
    + destruct t as [|y t]; [discriminate|].
      intros E. injection E as _ E. exact (IH t E).
Qed.

(** What trimming is: the text is the trimmed text between two runs of
    white space, and the trimmed text neither starts nor ends with
    white space. *)
Lemma trimmed_spec (s : jsstring) :
  exists l r,
    s = l ++ trimmed s ++ r
    /\ forallb is_space l = true /\ forallb is_space r = true
    /\ (forall c t, trimmed s = c :: t -> is_space c = false)
    /\ (forall c t, trimmed s = t ++ [c] -> is_space c = false).
Proof.
  destruct (strip_leading_split s) as (l & El & Hl).
  destruct (strip_trailing_split (strip_leading s)) as (r & Er & Hr).
  exists l, r. unfold trimmed.
  split; [rewrite <- Er; exact El|]. split; [exact Hl|]. split; [exact Hr|].
  split.
  - intros c t E. rewrite E in Er. apply (strip_leading_head s c (t ++ r)).
    exact Er.
  - intros c t. apply strip_trailing_last.
Qed.

Lemma slug_slug_spec (text : jsstring) :
  slug toLowerCase text = slug_spec toLowerCase text.
Proof.
  unfold slug, slug_spec. rewrite strip_keeps, trim_trimmed.
  apply (replace_plus_collapse _).
Qed.

Lemma slug_getting_started :
  slug toLowerCase (js "Getting Started!") = js "getting-started".
Proof.
  unfold slug. rewrite toLowerCase_ascii by reflexivity. reflexivity.
Qed.

Lemma slug_padded : slug toLowerCase padded_text = js "getting-started".
Proof.
  unfold slug. rewrite toLowerCase_ascii by reflexivity. reflexivity.
Qed.

(** C6. A heading without an id is given the slug of its text: the text
    lowercased, trimmed, with every code unit that is not a word
    character, white space or a hyphen removed, and with every run of
    white space turned into one hyphen. Trimming takes the white space
    off both ends and nothing more. The text [Getting Started!] gives
    [getting-started], and so does the same text with white space around
    it. *)
Theorem heading_slug (h : Heading) :
  id h = [] ->
  id (assignId toLowerCase h) = slug_spec toLowerCase (textContent h)
  /\ textContent (assignId toLowerCase h) = textContent h
  /\ (forall s, exists l r,
        s = l ++ trimmed s ++ r
        /\ forallb is_space l = true /\ forallb is_space r = true
        /\ (forall c t, trimmed s = c :: t -> is_space c = false)
        /\ (forall c t, trimmed s = t ++ [c] -> is_space c = false))
  /\ (textContent h = js "Getting Started!" ->
      id (assignId toLowerCase h) = js "getting-started")
  /\ (textContent h = padded_text ->
      id (assignId toLowerCase h) = js "getting-started").
Proof.
  intros Hid. unfold assignId. rewrite Hid. simpl.
  split; [apply slug_slug_spec|]. split; [reflexivity|].
  split; [apply trimmed_spec|]. split.
  - intros ->. apply slug_getting_started.
  - intros ->. apply slug_padded.
Qed.

End TocFacts.

Lemma heading_slug_witness :
  Toc.id (Toc.assignId (List.map Toc.lower_ascii)
            {| Toc.id := []; Toc.textContent := js "Getting Started!";
               Toc.tagName := js "H2" |})
  = js "getting-started"
  /\ Toc.id (Toc.assignId (List.map Toc.lower_ascii)
               {| Toc.id := []; Toc.textContent := Toc.padded_text;
                  Toc.tagName := js "H3" |})
     = js "getting-started".
Proof.
  split.
  - destruct (heading_slug (List.map Toc.lower_ascii)
                (fun s _ => eq_refl)
                {| Toc.id := []; Toc.textContent := js "Getting Started!";
                   Toc.tagName := js "H2" |} eq_refl) as (_ & _ & _ & H & _).
    exact (H eq_refl).
  - destruct (heading_slug (List.map Toc.lower_ascii)
                (fun s _ => eq_refl)
                {| Toc.id := []; Toc.textContent := Toc.padded_text;
                   Toc.tagName := js "H3" |} eq_refl) as (_ & _ & _ & _ & H).
    exact (H eq_refl).
Defined.

(** ** The accordion *)

Section AccordionShape.

Import Accordion.

(** Induction over a tree, the children of a node being a list. *)
Lemma NavNode_ind_list (P : NavNode -> Prop) :
  (forall t u cs, Forall P cs -> P (Node t u cs)) -> forall n, P n.
Proof.
  intros step. fix IH 1. intros [t u cs]. apply step.
  induction cs as [|c cs IHcs]; constructor; [apply IH | exact IHcs].
Qed.

Lemma renderChild_leaf t u d :
  renderChild (Node t u []) d
  = leaf_link (js "acc__child" ++ indentClass d) (escHtml t) (escAttr u).
Proof. reflexivity. Qed.

Lemma renderNode_leaf t u d :
  renderNode (Node t u []) d
  = leaf_link (js "drawer__leaf" ++ indentClass d) (escHtml t) (escAttr u).
Proof. reflexivity. Qed.

Lemma renderChild_branch t u c cs d :
  renderChild (Node t u (c :: cs)) d
  = branch_head div_open (escAttr (acc_id u)) (escHtml t) (indentClass d)
      (escAttr u)
    ++ concat (List.map (fun k => renderChild k (S d)) (c :: cs))
    ++ after_kids (js "div").
Proof.
  unfold branch_head. rewrite <- !app_assoc. reflexivity.
Qed.

Lemma renderNode_branch t u c cs d :
  renderNode (Node t u (c :: cs)) d
  = branch_head section_open (escAttr (acc_id u)) (escHtml t) []
      (escAttr u)
    ++ concat (List.map (fun k => renderChild k (S d)) (c :: cs))
    ++ after_kids (js "section").
Proof.
  unfold branch_head. rewrite <- !app_assoc. reflexivity.
Qed.

Lemma clean_escapeHtml s : clean (escapeHtml s).
Proof. apply escapeHtml_no_markup. Qed.

Lemma clean_indentClass d : clean (indentClass d).
Proof.
  unfold clean, indentClass. destruct (0 <? d)%nat;
    repeat (constructor; try reflexivity).
Qed.

Lemma clean_class (c : string) d :
  clean (js c) -> clean (js c ++ indentClass d).
Proof. intros H. apply Forall_app. split; [exact H | apply clean_indentClass]. Qed.

Lemma clean_nil : clean [].
Proof. constructor. Qed.

(** A clean string has no [<]: no tag starts in it. *)
Lemma clean_no_lt w : clean w -> Forall (fun c => c <> 60) w.
Proof.
  intros H. eapply Forall_impl; [exact H|]. intros c Hc ->. discriminate.
Qed.

Lemma clean_no_dq w : clean w -> Forall (fun c => c <> 34) w.
Proof.
  intros H. eapply Forall_impl; [exact H|]. intros c Hc ->. discriminate.
Qed.

End AccordionShape.

(** A count [F] over rendered strings that adds up piece by piece adds up
    over the rendering of a tree: [wb i] for each branch node, [i] being
    its escaped identifier, and [wl] for each leaf. *)
Section AccordionCount.

Import Accordion.

Variable F : jsstring -> nat.
Variable wb : jsstring -> nat.
Variable wl : nat.

Hypothesis F_branch_head :
  forall open i t cls u r,
    open = div_open \/ open = section_open ->
    clean i -> clean t -> clean cls -> clean u ->
    F (branch_head open i t cls u ++ r) = (wb i + F r)%nat.

Hypothesis F_after_kids :
  forall tag r,
    tag = js "div" \/ tag = js "section" ->
    F (after_kids tag ++ r) = F r.

Hypothesis F_leaf_link :
  forall cls t u r,
    clean cls -> clean t -> clean u ->
    F (leaf_link cls t u ++ r) = (wl + F r)%nat.

Local Abbreviation weight := (node_weight wb wl).

Lemma count_kids (f : NavNode -> jsstring) cs r :
  Forall (fun c => forall r, F (f c ++ r) = (weight c + F r)%nat) cs ->
  F (concat (List.map f cs) ++ r)
  = (list_sum (List.map weight cs) + F r)%nat.
Proof.
  induction 1 as [|c cs Hc _ IH]; simpl; [reflexivity|].
  rewrite <- app_assoc, Hc, IH. lia.
Qed.

Lemma count_renderChild n :
  forall d r, F (renderChild n d ++ r) = (weight n + F r)%nat.
Proof.
  induction n as [t u cs IH] using NavNode_ind_list. intros d r.
  destruct cs as [|c cs].
  - rewrite renderChild_leaf. apply F_leaf_link.
    + apply clean_class. repeat (constructor; try reflexivity).
    + apply clean_escapeHtml.
    + apply clean_escapeHtml.
  - rewrite renderChild_branch, <- !app_assoc.
    rewrite F_branch_head;
      auto using clean_escapeHtml, clean_indentClass.
    rewrite (count_kids (fun k => renderChild k (S d))).
    + rewrite F_after_kids by auto. unfold node_weight. cbn [weigh]. lia.
    + eapply Forall_impl; [exact IH|]. intros k Hk. apply Hk.
Qed.

Lemma count_renderNode n :
  forall d r, F (renderNode n d ++ r) = (weight n + F r)%nat.
Proof.
  intros d r. destruct n as [t u [|c cs]].
  - rewrite renderNode_leaf. apply F_leaf_link.
    + apply clean_class. repeat (constructor; try reflexivity).
    + apply clean_escapeHtml.
    + apply clean_escapeHtml.
  - rewrite renderNode_branch, <- !app_assoc.
    rewrite F_branch_head;
      auto using clean_escapeHtml, clean_nil.
    rewrite (count_kids (fun k => renderChild k (S d))).
    + rewrite F_after_kids by auto. unfold node_weight. cbn [weigh]. lia.
    + apply Forall_forall. intros k _. apply count_renderChild.
Qed.

Lemma count_renderTree navTree :
  F (renderTree navTree) = (total weight navTree + F [])%nat.
Proof.
  unfold renderTree, total.
  rewrite <- (app_nil_r (concat _)). apply count_kids.
  apply Forall_forall. intros n _. apply count_renderNode.
Qed.

End AccordionCount.

(** ** Counting markup in the accordion *)

Section AccordionMarkup.

Import Accordion.

Lemma prefixb_app_r p w r : prefixb p w = true -> prefixb p (w ++ r) = true.
Proof.
  revert w. induction p as [|x p IH]; intros [|y w]; simpl; try discriminate;
    [reflexivity | reflexivity |].
  intros [H1 H2]%andb_prop. rewrite H1. simpl. apply IH, H2.
Qed.

Lemma clash_not_prefixb p w : clash p w = true -> prefixb p w = false.
Proof.
  intros H. rewrite <- (app_nil_r w). apply clash_prefixb, H.
Qed.

Lemma count_sub_settled p w k r :
  settled p w = true -> count_sub p w = k ->
  count_sub p (w ++ r) = (k + count_sub p r)%nat.
Proof.
  intros H <-. unfold settled in H.
  induction w as [|y w IH]; [reflexivity|].
  cbn [all_suffixes] in H. apply andb_prop in H as [H1 H2].
  change (count_sub p ((y :: w) ++ r))
    with ((if prefixb p ((y :: w) ++ r) then 1 else 0)
          + count_sub p (w ++ r))%nat.
  change (count_sub p (y :: w))
    with ((if prefixb p (y :: w) then 1 else 0) + count_sub p w)%nat.
  rewrite (IH H2). apply orb_prop in H1 as [H1|H1].
  - rewrite (clash_prefixb _ _ r H1), (clash_not_prefixb _ _ H1). lia.
  - rewrite (prefixb_app_r _ _ r H1), H1. lia.
Qed.

Lemma count_sub_clean p w r :
  prefixb [60] p = true -> clean w -> count_sub p (w ++ r) = count_sub p r.
Proof.
  destruct p as [|x p]; [discriminate|]. cbn [prefixb].
  destruct (Z.eqb_spec 60 x) as [<-|]; [|discriminate]. intros _ H.
  apply count_sub_absent, clean_no_lt, H.
Qed.

Lemma count_sub_no_start_app b q w r :
  no_start b w = true -> count_sub (b ++ q) (w ++ r) = count_sub (b ++ q) r.
Proof. intros H. apply count_sub_no_start, no_start_app, H. Qed.

Lemma count_sub_hit_open b q r :
  self_free b = true ->
  count_sub (b ++ q) (b ++ r)
  = ((if prefixb q r then 1 else 0) + count_sub (b ++ q) r)%nat.
Proof.
  destruct b as [|x b]; [discriminate|]. simpl self_free. intros H.
  apply (count_sub_hit x b q r).
  apply Forall_forall. intros c Hc ->.
  rewrite forallb_forall in H. apply list_elem_of_In in Hc.
  specialize (H _ Hc). rewrite Z.eqb_refl in H. discriminate.
Qed.

(** Two identifiers without a quote, each followed by a quote: one starts
    the other only if they are equal. *)
Lemma prefixb_delim (i j r : jsstring) :
  Forall (fun c => c <> 34) i -> Forall (fun c => c <> 34) j ->
  prefixb (i ++ dq) (j ++ dq ++ r) = bool_decide (i = j).
Proof.
  change (dq ++ r) with (34 :: r). unfold dq. intros Hi. revert j.
  induction Hi as [|x i Hx _ IH]; intros j Hj.
  - destruct Hj as [|y j Hy _]; cbn [prefixb app].
    + rewrite Z.eqb_refl. reflexivity.
    + destruct (Z.eqb_spec 34 y); [congruence|]. reflexivity.
  - destruct Hj as [|y j Hy Hj]; cbn [prefixb app].
    + destruct (Z.eqb_spec x 34); [congruence|]. reflexivity.
    + rewrite (IH j Hj). destruct (Z.eqb_spec x y) as [->|Hne]; simpl.
      * apply bool_decide_ext. split; congruence.
      * symmetry. apply bool_decide_eq_false_2. congruence.
Qed.

Local Ltac split_open H :=
  destruct H as [-> | ->].

Local Ltac count_pieces :=
  repeat first
    [ rewrite count_sub_clean by (first [reflexivity | assumption])
    | erewrite count_sub_settled by (vm_compute; reflexivity) ].

Lemma button_start_branch_head open i t cls u r :
  open = div_open \/ open = section_open ->
  clean i -> clean t -> clean cls -> clean u ->
  count_sub button_start (branch_head open i t cls u ++ r)
  = (1 + count_sub button_start r)%nat.
Proof.
  intros Ho Hi Ht Hc Hu. unfold branch_head. rewrite <- !app_assoc.
  split_open Ho; count_pieces; reflexivity.
Qed.

Lemma button_start_after_kids tag r :
  tag = js "div" \/ tag = js "section" ->
  count_sub button_start (after_kids tag ++ r) = count_sub button_start r.
Proof. intros Ho. split_open Ho; count_pieces; reflexivity. Qed.

Lemma button_start_leaf_link cls t u r :
  clean cls -> clean t -> clean u ->
  count_sub button_start (leaf_link cls t u ++ r)
  = (0 + count_sub button_start r)%nat.
Proof.
  intros Hc Ht Hu. unfold leaf_link. rewrite <- !app_assoc.
  count_pieces; reflexivity.
Qed.

Lemma panel_open_branch_head open i t cls u r :
  open = div_open \/ open = section_open ->
  clean i -> clean t -> clean cls -> clean u ->
  count_sub panel_open (branch_head open i t cls u ++ r)
  = (1 + count_sub panel_open r)%nat.
Proof.
  intros Ho Hi Ht Hc Hu. unfold branch_head. rewrite <- !app_assoc.
  split_open Ho; count_pieces; reflexivity.
Qed.

Lemma panel_open_after_kids tag r :
  tag = js "div" \/ tag = js "section" ->
  count_sub panel_open (after_kids tag ++ r) = count_sub panel_open r.
Proof. intros Ho. split_open Ho; count_pieces; reflexivity. Qed.

Lemma panel_open_leaf_link cls t u r :
  clean cls -> clean t -> clean u ->
  count_sub panel_open (leaf_link cls t u ++ r)
  = (0 + count_sub panel_open r)%nat.
Proof.
  intros Hc Ht Hu. unfold leaf_link. rewrite <- !app_assoc.
  count_pieces; reflexivity.
Qed.

Lemma sections_branch_head open i t cls u r :
  open = div_open \/ open = section_open ->
  clean i -> clean t -> clean cls -> clean u ->
  count_sections (branch_head open i t cls u ++ r)
  = (1 + count_sections r)%nat.
Proof.
  intros Ho Hi Ht Hc Hu. unfold count_sections, branch_head.
  rewrite <- !app_assoc.
  split_open Ho; count_pieces; simpl; lia.
Qed.

Lemma sections_after_kids tag r :
  tag = js "div" \/ tag = js "section" ->
  count_sections (after_kids tag ++ r) = count_sections r.
Proof.
  intros Ho. unfold count_sections.
  split_open Ho; count_pieces; reflexivity.
Qed.

Lemma sections_leaf_link cls t u r :
  clean cls -> clean t -> clean u ->
  count_sections (leaf_link cls t u ++ r) = (0 + count_sections r)%nat.
Proof.
  intros Hc Ht Hu. unfold count_sections, leaf_link. rewrite <- !app_assoc.
  count_pieces; reflexivity.
Qed.

Local Ltac id_pieces :=
  repeat first
    [ rewrite count_sub_clean by (first [reflexivity | assumption])
    | rewrite count_sub_no_start_app by (vm_compute; reflexivity)
    | rewrite count_sub_hit_open by (vm_compute; reflexivity);
      rewrite prefixb_delim by (apply clean_no_dq; assumption) ].

Lemma toggle_of_branch_head i0 open i t cls u r :
  clean i0 ->
  open = div_open \/ open = section_open ->
  clean i -> clean t -> clean cls -> clean u ->
  count_sub (toggle_of i0) (branch_head open i t cls u ++ r)
  = ((if bool_decide (i0 = i) then 1 else 0) + count_sub (toggle_of i0) r)%nat.
Proof.
  intros H0 Ho Hi Ht Hc Hu. unfold toggle_of, branch_head.
  rewrite <- !app_assoc.
  split_open Ho; id_pieces; reflexivity.
Qed.

Lemma toggle_of_after_kids i0 tag r :
  tag = js "div" \/ tag = js "section" ->
  count_sub (toggle_of i0) (after_kids tag ++ r) = count_sub (toggle_of i0) r.
Proof.
  intros Ho. unfold toggle_of. split_open Ho; id_pieces; reflexivity.
Qed.

Lemma toggle_of_leaf_link i0 cls t u r :
  clean cls -> clean t -> clean u ->
  count_sub (toggle_of i0) (leaf_link cls t u ++ r)
  = (0 + count_sub (toggle_of i0) r)%nat.
Proof.
  intros Hc Ht Hu. unfold toggle_of, leaf_link. rewrite <- !app_assoc.
  id_pieces; reflexivity.
Qed.

Lemma sections_of_branch_head i0 open i t cls u r :
  clean i0 ->
  open = div_open \/ open = section_open ->
  clean i -> clean t -> clean cls -> clean u ->
  count_sections_of i0 (branch_head open i t cls u ++ r)
  = ((if bool_decide (i0 = i) then 1 else 0) + count_sections_of i0 r)%nat.
Proof.
  intros H0 Ho Hi Ht Hc Hu.
  unfold count_sections_of, section_of, div_of, branch_head.
  rewrite <- !app_assoc.
  split_open Ho; id_pieces; destruct (bool_decide (i0 = i)); simpl; lia.
Qed.

Lemma sections_of_after_kids i0 tag r :
  tag = js "div" \/ tag = js "section" ->
  count_sections_of i0 (after_kids tag ++ r) = count_sections_of i0 r.
Proof.
  intros Ho. unfold count_sections_of, section_of, div_of.
  split_open Ho; id_pieces; reflexivity.
Qed.

Lemma sections_of_leaf_link i0 cls t u r :
  clean cls -> clean t -> clean u ->
  count_sections_of i0 (leaf_link cls t u ++ r)
  = (0 + count_sections_of i0 r)%nat.
Proof.
  intros Hc Ht Hu.
  unfold count_sections_of, section_of, div_of, leaf_link.
  rewrite <- !app_assoc.
  id_pieces; reflexivity.
Qed.

Lemma no_start_clean p w :
  prefixb [60] p = true -> clean w -> no_start p w = true.
Proof.
  destruct p as [|x p]; [discriminate|]. cbn [prefixb].
  destruct (Z.eqb_spec 60 x) as [<-|]; [|discriminate]. intros _ H.
  apply no_start_absent, clean_no_lt, H.
Qed.

Lemma not_collapsed_skip w r :
  no_start section_start w = true -> no_start div_start w = true ->
  count_not_collapsed (w ++ r) = count_not_collapsed r.
Proof.
  unfold no_start, count_not_collapsed.
  induction w as [|y w IH]; [reflexivity|].
  cbn [all_suffixes]. intros [H1 H2]%andb_prop [H3 H4]%andb_prop.
  change (count_suffixes (fun w => negb (collapsed_here w)) ((y :: w) ++ r))
    with ((if negb (collapsed_here ((y :: w) ++ r)) then 1 else 0)
          + count_suffixes (fun w => negb (collapsed_here w)) (w ++ r))%nat.
  rewrite (IH H2 H4). unfold collapsed_here.
  rewrite (clash_prefixb _ _ r H1), (clash_prefixb _ _ r H3). reflexivity.
Qed.

Lemma not_collapsed_clean w r :
  clean w -> count_not_collapsed (w ++ r) = count_not_collapsed r.
Proof.
  intros H. apply not_collapsed_skip; apply no_start_clean;
    (reflexivity || exact H).
Qed.

Lemma skip_to_quote_clean i r :
  clean i -> skip_to_quote (i ++ dq ++ r) = dq ++ r.
Proof.
  intros H. apply clean_no_dq in H.
  induction H as [|x i Hx _ IH]; [reflexivity|].
  cbn [app skip_to_quote]. destruct (Z.eqb_spec x 34); [congruence|].
  exact IH.
Qed.

(** The tag the two templates open a section with is a collapsed one. *)
Lemma collapsed_here_open open i r :
  open = div_open \/ open = section_open -> clean i ->
  collapsed_here (open ++ i ++ dq ++ before_button ++ r) = true.
Proof.
  intros Ho Hi. unfold collapsed_here. split_open Ho.
  - rewrite (clash_prefixb section_start div_open) by reflexivity.
    replace (prefixb div_start (div_open ++ i ++ dq ++ before_button ++ r))
      with true
      by (unfold div_open; rewrite <- app_assoc; now rewrite prefixb_app).
    rewrite prefixb_app, drop_app_length, skip_to_quote_clean by exact Hi.
    reflexivity.
  - replace (prefixb section_start
               (section_open ++ i ++ dq ++ before_button ++ r))
      with true
      by (unfold section_open; rewrite <- app_assoc; now rewrite prefixb_app).
    rewrite prefixb_app, drop_app_length, skip_to_quote_clean by exact Hi.
    reflexivity.
Qed.

Lemma not_collapsed_open open i r :
  open = div_open \/ open = section_open -> clean i ->
  count_not_collapsed (open ++ i ++ dq ++ before_button ++ r)
  = count_not_collapsed r.
Proof.
  intros Ho Hi. pose proof (collapsed_here_open open i r Ho Hi) as Hc.
  assert (E : exists tl, open = 60 :: tl
                         /\ no_start section_start tl = true
                         /\ no_start div_start tl = true).
  { destruct Ho as [-> | ->]; eexists; (split; [reflexivity|]);
      split; vm_compute; reflexivity. }
  destruct E as (tl & -> & H1 & H2).
  change (count_not_collapsed ((60 :: tl) ++ i ++ dq ++ before_button ++ r))
    with ((if negb (collapsed_here
                      ((60%Z :: tl) ++ i ++ dq ++ before_button ++ r))
           then 1 else 0)
          + count_not_collapsed (tl ++ i ++ dq ++ before_button ++ r))%nat.
  rewrite Hc. simpl negb. cbn iota.
  rewrite (not_collapsed_skip tl) by assumption.
  rewrite (not_collapsed_clean i) by assumption.
  rewrite (not_collapsed_skip dq) by reflexivity.
  rewrite (not_collapsed_skip before_button) by reflexivity.
  reflexivity.
Qed.

Local Ltac collapsed_pieces :=
  repeat first
    [ rewrite not_collapsed_clean by assumption
    | rewrite not_collapsed_skip by (vm_compute; reflexivity)
    | rewrite not_collapsed_open by auto ].

Lemma not_collapsed_branch_head open i t cls u r :
  open = div_open \/ open = section_open ->
  clean i -> clean t -> clean cls -> clean u ->
  count_not_collapsed (branch_head open i t cls u ++ r)
  = (0 + count_not_collapsed r)%nat.
Proof.
  intros Ho Hi Ht Hc Hu. unfold branch_head. rewrite <- !app_assoc.
  rewrite (not_collapsed_skip before_open) by reflexivity.
  rewrite (not_collapsed_open open i) by assumption.
  split_open Ho; collapsed_pieces; reflexivity.
Qed.

Lemma not_collapsed_after_kids tag r :
  tag = js "div" \/ tag = js "section" ->
  count_not_collapsed (after_kids tag ++ r) = count_not_collapsed r.
Proof. intros Ho. split_open Ho; collapsed_pieces; reflexivity. Qed.

Lemma not_collapsed_leaf_link cls t u r :
  clean cls -> clean t -> clean u ->
  count_not_collapsed (leaf_link cls t u ++ r)
  = (0 + count_not_collapsed r)%nat.
Proof.
  intros Hc Ht Hu. unfold leaf_link. rewrite <- !app_assoc.
  collapsed_pieces; reflexivity.
Qed.

(** Identifiers are [acc_] and decimal digits, which escaping leaves
    alone. *)

Lemma plain_digits d : plain (js (NilEmpty.string_of_uint d)).
Proof.
  induction d; simpl; constructor; try exact IHd;
    split; (reflexivity || discriminate).
Qed.

Lemma plain_String_of_nat n : plain (String_of_nat n).
Proof.
  unfold String_of_nat, NilZero.string_of_uint.
  destruct (N.to_uint (Z.to_N n)); try apply plain_digits.
  repeat constructor. discriminate.
Qed.

Lemma plain_acc_id u : plain (acc_id u).
Proof.
  unfold acc_id, hash. apply Forall_app. split.
  - repeat (constructor; [split; (reflexivity || discriminate)|]).
    constructor.
  - apply plain_String_of_nat.
Qed.

Lemma escapeHtml_plain s : plain s -> escapeHtml s = s.
Proof.
  intros H. rewrite escapeHtml_units.
  induction H as [|c s [Hm Ha] _ IH]; [reflexivity|].
  simpl. rewrite IH. unfold escape_unit. unfold is_markup in Hm.
  repeat (apply orb_false_elim in Hm as [Hm ?]).
  destruct (Z.eqb_spec c 38); [contradiction|].
  rewrite Hm. repeat match goal with H : _ = false |- _ => rewrite H end.
  reflexivity.
Qed.

Lemma escAttr_acc_id u : escAttr (acc_id u) = acc_id u.
Proof. apply escapeHtml_plain, plain_acc_id. Qed.

Lemma weigh_ext (f g : jsstring -> nat) wl n :
  (forall u, f u = g u) -> weigh f wl n = weigh g wl n.
Proof.
  intros Hfg. induction n as [t u cs IH] using NavNode_ind_list.
  destruct cs as [|c cs]; [reflexivity|]. cbn [weigh]. rewrite Hfg. f_equal.
  f_equal. apply map_ext_Forall. exact IH.
Qed.

Lemma total_ext (f g : NavNode -> nat) navTree :
  (forall n, f n = g n) -> total f navTree = total g navTree.
Proof.
  intros H. unfold total. f_equal. apply map_ext. exact H.
Qed.

Lemma weigh_with_id i n :
  weigh (fun u => if bool_decide (i = escAttr (acc_id u)) then 1 else 0)%nat
    0 n
  = branches_with_id i n.
Proof.
  apply weigh_ext. intros u. rewrite escAttr_acc_id.
  apply (f_equal (fun b : bool => if b then 1%nat else 0%nat)).
  apply bool_decide_ext. split; congruence.
Qed.

Lemma count_suffixes_none Q s :
  count_suffixes Q s = 0%nat ->
  forall k, (k < length s)%nat -> Q (drop k s) = false.
Proof.
  induction s as [|c s IH]; simpl; [lia|].
  intros H k Hk. destruct (Q (c :: s)) eqn:E; [discriminate|].
  destruct k as [|k]; [exact E|]. simpl. apply IH; [exact H | lia].
Qed.

Lemma clean_acc_id u : clean (acc_id u).
Proof.
  eapply Forall_impl; [apply plain_acc_id|]. intros c [H _]. exact H.
Qed.

Lemma buttons_renderTree navTree :
  count_sub button_start (renderTree navTree) = total branches navTree.
Proof.
  rewrite (count_renderTree (count_sub button_start) (fun _ => 1%nat) 0
             button_start_branch_head button_start_after_kids
             button_start_leaf_link).
  simpl. apply Nat.add_0_r.
Qed.

Lemma panels_renderTree navTree :
  count_sub panel_open (renderTree navTree) = total branches navTree.
Proof.
  rewrite (count_renderTree (count_sub panel_open) (fun _ => 1%nat) 0
             panel_open_branch_head panel_open_after_kids
             panel_open_leaf_link).
  simpl. apply Nat.add_0_r.
Qed.

Lemma sections_renderTree navTree :
  count_sections (renderTree navTree) = total branches navTree.
Proof.
  rewrite (count_renderTree count_sections (fun _ => 1%nat) 0
             sections_branch_head sections_after_kids sections_leaf_link).
  unfold count_sections. simpl. apply Nat.add_0_r.
Qed.

Lemma toggles_of_renderTree i navTree :
  clean i ->
  count_sub (toggle_of i) (renderTree navTree)
  = total (branches_with_id i) navTree.
Proof.
  intros Hi.
  rewrite (count_renderTree (count_sub (toggle_of i))
             (fun j => if bool_decide (i = j) then 1 else 0)%nat 0
             (fun open j t cls u r => toggle_of_branch_head i open j t cls u r Hi)
             (toggle_of_after_kids i) (toggle_of_leaf_link i)).
  simpl. rewrite Nat.add_0_r. apply total_ext, weigh_with_id.
Qed.

Lemma sections_of_renderTree i navTree :
  clean i ->
  count_sections_of i (renderTree navTree)
  = total (branches_with_id i) navTree.
Proof.
  intros Hi.
  rewrite (count_renderTree (count_sections_of i)
             (fun j => if bool_decide (i = j) then 1 else 0)%nat 0
             (fun open j t cls u r =>
                sections_of_branch_head i open j t cls u r Hi)
             (sections_of_after_kids i) (sections_of_leaf_link i)).
  unfold count_sections_of. simpl. rewrite Nat.add_0_r.
  apply total_ext, weigh_with_id.
Qed.

Lemma list_sum_zero {A} (f : A -> nat) (l : list A) :
  Forall (fun x => f x = 0%nat) l -> list_sum (List.map f l) = 0%nat.
Proof. induction 1 as [|x l Hx _ IH]; simpl; [reflexivity | lia]. Qed.

Lemma weigh_zero n : weigh (fun _ => 0%nat) 0 n = 0%nat.
Proof.
  induction n as [t u cs IH] using NavNode_ind_list.
  destruct cs as [|c cs]; [reflexivity|]. cbn [weigh].
  rewrite (list_sum_zero _ _ IH). reflexivity.
Qed.

Lemma not_collapsed_renderTree navTree :
  count_not_collapsed (renderTree navTree) = 0%nat.
Proof.
  rewrite (count_renderTree count_not_collapsed (fun _ => 0%nat) 0
             not_collapsed_branch_head not_collapsed_after_kids
             not_collapsed_leaf_link).
  unfold total. rewrite list_sum_zero; [reflexivity|].
  apply Forall_forall. intros n _. apply weigh_zero.
Qed.

Lemma leaf_no_toggle cls t u :
  clean cls -> clean t -> clean u ->
  count_sub button_start (leaf_link cls t u) = 0%nat
  /\ count_sub panel_open (leaf_link cls t u) = 0%nat
  /\ count_sections (leaf_link cls t u) = 0%nat.
Proof.
  intros Hc Ht Hu. rewrite <- (app_nil_r (leaf_link cls t u)).
  rewrite button_start_leaf_link, panel_open_leaf_link,
    sections_leaf_link by assumption.
  repeat split.
Qed.

(** C5. In the markup rendered for a tree there is one toggle button,
    one panel and one collapsible section for each branch node, a node
    with a child; for every identifier, the toggle buttons that carry it
    in [data-acc-toggle] and the sections that carry it in [data-acc] are
    as many as the branch nodes whose identifier it is, so that the button
    and the section of a node share its identifier; and a leaf is rendered
    as a link alone, with no toggle button, no panel and no section. *)
Theorem accordion_toggle_panel_pairs (navTree : list NavNode) :
  let out := renderTree navTree in
  count_sub button_start out = total branches navTree
  /\ count_sub panel_open out = total branches navTree
  /\ count_sections out = total branches navTree
  /\ (forall i, clean i ->
      count_sub (toggle_of i) out = total (branches_with_id i) navTree
      /\ count_sections_of i out = total (branches_with_id i) navTree)
  /\ (forall t u d,
      let leaf := Node t u [] in
      renderNode leaf d
      = leaf_link (js "drawer__leaf" ++ indentClass d) (escHtml t) (escAttr u)
      /\ renderChild leaf d
         = leaf_link (js "acc__child" ++ indentClass d) (escHtml t) (escAttr u)
      /\ count_sub button_start (renderNode leaf d) = 0%nat
      /\ count_sub panel_open (renderNode leaf d) = 0%nat
      /\ count_sub button_start (renderChild leaf d) = 0%nat
      /\ count_sub panel_open (renderChild leaf d) = 0%nat).
Proof.
  intros out.
  split; [apply buttons_renderTree|].
  split; [apply panels_renderTree|].
  split; [apply sections_renderTree|].
  split.
  - intros i Hi. split;
      [apply toggles_of_renderTree | apply sections_of_renderTree]; exact Hi.
  - intros t u d leaf. unfold leaf.
    rewrite renderNode_leaf, renderChild_leaf.
    split; [reflexivity|]. split; [reflexivity|].
    destruct (leaf_no_toggle (js "drawer__leaf" ++ indentClass d)
                (escHtml t) (escAttr u)) as (H1 & H2 & _);
      [apply clean_class; repeat (constructor; try reflexivity)
      | apply clean_escapeHtml | apply clean_escapeHtml |].
    destruct (leaf_no_toggle (js "acc__child" ++ indentClass d)
                (escHtml t) (escAttr u)) as (H3 & H4 & _);
      [apply clean_class; repeat (constructor; try reflexivity)
      | apply clean_escapeHtml | apply clean_escapeHtml |].
    auto.
Qed.

Lemma accordion_toggle_panel_pairs_witness :
  let navTree := [Node (js "Guides") (js "/guides/")
                    [Node (js "Start") (js "/guides/start/") []];
                  Node (js "About") (js "/about/") []] in
  let i := acc_id (js "/guides/") in
  clean i
  /\ count_sub button_start (renderTree navTree) = 1%nat
  /\ count_sub (toggle_of i) (renderTree navTree) = 1%nat
  /\ count_sections_of i (renderTree navTree) = 1%nat.
Proof.
  intros navTree i.
  assert (Hi : clean i) by (vm_compute; repeat constructor).
  split; [exact Hi|].
  destruct (accordion_toggle_panel_pairs navTree) as (H1 & _ & _ & H4 & _).
  destruct (H4 i Hi) as [H5 H6].
  rewrite H1, H5, H6. vm_compute. auto.
Defined.

(** C10. In the markup rendered for a tree, wherever a collapsible
    section starts, at whatever depth, its tag reads [data-acc], the
    identifier and [aria-expanded="false"]; there are as many such
    sections as branch nodes. *)
Theorem sections_rendered_collapsed (navTree : list NavNode) :
  let out := renderTree navTree in
  count_sections out = total branches navTree
  /\ count_not_collapsed out = 0%nat
  /\ (forall k : nat, collapsed_here (drop k out) = true).
Proof.
  intros out.
  split; [apply sections_renderTree|].
  split; [apply not_collapsed_renderTree|].
  intros k. destruct (Nat.lt_ge_cases k (length out)) as [Hk|Hk].
  - apply negb_false_iff.
    apply (count_suffixes_none _ out (not_collapsed_renderTree navTree) k Hk).
  - rewrite drop_ge by exact Hk. reflexivity.
Qed.

End AccordionMarkup.

(** ** The functions on sample inputs *)

Section Samples.

Example escapeHtml_sample :
  escapeHtml (js "a<b & 'c'") = js "a&lt;b &amp; &#039;c&#039;".
Proof. reflexivity. Qed.

Example escapeHtml_twice_sample :
  escapeHtml (escapeHtml (js "<")) = js "&amp;lt;".
Proof. reflexivity. Qed.

Example unescapeHtml_sample :
  unescapeHtml (js "a&lt;b &amp;amp; &#039;c&#039;") = js "a<b &amp; 'c'".
Proof. reflexivity. Qed.

Example hash_empty : hash [] = js "0".
Proof. reflexivity. Qed.

Example hash_sample : hash (js "/guides/") = js "680965897".
Proof. vm_compute. reflexivity. Qed.

(** The sum leaves the 32-bit range and comes back negative; [Math.abs]
    drops the sign. *)
Example hash_wraps :
  hash_loop (js "/projects/") = -1541031002
  /\ hash (js "/projects/") = js "1541031002".
Proof. vm_compute. split; reflexivity. Qed.

Example renderNode_leaf_sample :
  Accordion.renderNode (Accordion.Node (js "Q&A") (js "/q?a=1&b=2") []) 0
  = js "<a class=" ++ dq ++ js "drawer__leaf" ++ dq ++ js " href=" ++ dq
    ++ js "/q?a=1&amp;b=2" ++ dq ++ js ">Q&amp;A</a>".
Proof. vm_compute. reflexivity. Qed.

Example renderChild_leaf_sample :
  Accordion.renderChild (Accordion.Node (js "Start") (js "/start/") []) 1
  = js "<a class=" ++ dq ++ js "acc__child acc__child--indent" ++ dq
    ++ js " href=" ++ dq ++ js "/start/" ++ dq ++ js ">Start</a>".
Proof. vm_compute. reflexivity. Qed.

Example slug_sample :
  Toc.slug (List.map Toc.lower_ascii) (js "  What's New -  v2.0?  ")
  = js "whats-new---v20".
Proof. vm_compute. reflexivity. Qed.

Example menu_sample :
  let s := HoverMenu.run
             [HoverMenu.ItemEnter 0; HoverMenu.ItemLeave 0 false;
              HoverMenu.Elapse 50; HoverMenu.ItemEnter 1;
              HoverMenu.Elapse 100; HoverMenu.TimerFires 1%positive]
             (HoverMenu.setup true 1%positive 0) in
  HoverMenu.active s = Some 1%nat /\ HoverMenu.pending s = [].
Proof. vm_compute. split; reflexivity. Qed.

End Samples.

(** * Further properties *)

(** ** escapeHtml and cssEscape *)

Section EscapeMore.

Import Accordion.

(** X1. Escaping a string made of two parts is escaping each part: the
    markup the renderers put together from escaped pieces is what
    escaping would give on the pieces joined. *)
Theorem escapeHtml_app (a b : jsstring) :
  escapeHtml (a ++ b) = escapeHtml a ++ escapeHtml b.
Proof. rewrite !escapeHtml_units. apply flat_map_app. Qed.

Lemma escape_unit_length c :
  (1 <= length (escape_unit c) <= 6)%nat
  /\ (length (escape_unit c) = 1%nat -> is_markup c = false /\ c <> 38).
Proof.
  unfold escape_unit, is_markup.
  destruct (Z.eqb_spec c 38) as [->|H38]; [simpl; split; [lia|discriminate]|].
  destruct (Z.eqb_spec c 60) as [->|?]; [simpl; split; [lia|discriminate]|].
  destruct (Z.eqb_spec c 62) as [->|?]; [simpl; split; [lia|discriminate]|].
  destruct (Z.eqb_spec c 34) as [->|?]; [simpl; split; [lia|discriminate]|].
  destruct (Z.eqb_spec c 39) as [->|?]; [simpl; split; [lia|discriminate]|].
  simpl. split; [lia|]. intros _. split; [reflexivity | exact H38].
Qed.

Lemma escapeHtml_length_plain s :
  (length s <= length (escapeHtml s) <= 6 * length s)%nat
  /\ (length (escapeHtml s) = length s -> plain s).
Proof.
  rewrite escapeHtml_units. induction s as [|c s [IH1 IH2]].
  - simpl. split; [lia | constructor].
  - simpl flat_map. rewrite length_app. simpl length.
    destruct (escape_unit_length c) as [Hc Hp].
    split; [lia|]. intros E. constructor.
    + apply Hp. lia.
    + apply IH2. lia.
Qed.

Lemma replaceAll_absent x pat rep w :
  Forall (fun c => c <> x) w -> replaceAll (x :: pat) rep w = w.
Proof.
  intros H. rewrite <- (app_nil_r w) at 1.
  rewrite replaceAll_no_start by (apply no_start_absent, H).
  now rewrite app_nil_r.
Qed.

Lemma unescapeHtml_plain w : plain w -> unescapeHtml w = w.
Proof.
  intros H.
  assert (Ha : Forall (fun c => c <> 38) w).
  { eapply Forall_impl; [exact H|]. intros c [_ Hc]. exact Hc. }
  unfold unescapeHtml.
  rewrite (replaceAll_absent 38 (js "#039;") _ w Ha).
  rewrite (replaceAll_absent 38 (js "quot;") _ w Ha).
  rewrite (replaceAll_absent 38 (js "gt;") _ w Ha).
  rewrite (replaceAll_absent 38 (js "lt;") _ w Ha).
  apply (replaceAll_absent 38 (js "amp;") _ w Ha).
Qed.

(** X2. Escaping never shortens a string and makes it at most six times
    as long; it leaves exactly the strings without [&], [<], [>] and
    quotes as they are, so that escaping twice differs from escaping once
    as soon as one of them is there. *)
Theorem escapeHtml_length_and_fixed_points (s : jsstring) :
  (length s <= length (escapeHtml s) <= 6 * length s)%nat
  /\ (escapeHtml s = s <-> plain s)
  /\ (escapeHtml (escapeHtml s) = escapeHtml s <-> plain s).
Proof.
  destruct (escapeHtml_length_plain s) as [Hlen Hp].
  split; [exact Hlen|]. split.
  - split; [|apply escapeHtml_plain].
    intros E. apply Hp. now rewrite E.
  - split.
    + intros E. apply Hp.
      destruct (escapeHtml_length_plain (escapeHtml s)) as [_ Hp'].
      assert (Hq : plain (escapeHtml s)) by (apply Hp'; now rewrite E).
      pose proof (unescapeHtml_plain _ Hq) as Hu.
      rewrite unescapeHtml_escapeHtml in Hu. now rewrite <- Hu.
    + intros H. now rewrite !(escapeHtml_plain s H).
Qed.

Lemma cssEscape_units s :
  cssEscape s = flat_map (fun c => if c =? 39 then js "\'" else [c]) s.
Proof.
  unfold cssEscape. rewrite <- (flat_map_units s) at 1.
  apply replaceAll_blocks; [discriminate|]. intros c.
  unfold escape_upto. simpl.
  destruct (Z.eqb_spec c 39) as [->|Hc]; [left; split; reflexivity|].
  right. split; [reflexivity|]. unfold no_start.
  change (js "'") with [39]. cbn -[Z.eqb].
  destruct (Z.eqb_spec 39 c); [congruence | reflexivity].
Qed.

Lemma cssEscape_no_quote w :
  Forall (fun c => c <> 39) w -> cssEscape w = w.
Proof.
  intros H. rewrite cssEscape_units.
  induction H as [|c w Hc _ IH]; [reflexivity|].
  simpl. destruct (Z.eqb_spec c 39); [contradiction|]. now rewrite IH.
Qed.

Lemma cssEscape_acc_id u : cssEscape (acc_id u) = acc_id u.
Proof.
  apply cssEscape_no_quote. eapply Forall_impl; [apply (plain_acc_id u)|].
  intros c [Hm _] ->. discriminate.
Qed.

(** X3. [cssEscape] puts a backslash before each single quote and changes
    nothing else; a string without a single quote comes back as it is,
    and so does every identifier the renderer gives a section: the
    selector the click listener builds names the identifier itself. *)
Theorem cssEscape_quotes (s : jsstring) :
  cssEscape s = flat_map (fun c => if c =? 39 then [92; 39] else [c]) s
  /\ (Forall (fun c => c <> 39) s -> cssEscape s = s)
  /\ (forall u, cssEscape (acc_id u) = acc_id u).
Proof.
  split; [apply cssEscape_units|]. split; [apply cssEscape_no_quote|].
  apply cssEscape_acc_id.
Qed.

Lemma cssEscape_quotes_witness :
  cssEscape (js "acc_42") = js "acc_42".
Proof.
  destruct (cssEscape_quotes (js "acc_42")) as (_ & H & _).
  apply H. repeat constructor; discriminate.
Defined.

End EscapeMore.

(** ** hash *)

Section HashFacts.

Import Accordion.

Lemma toInt32_range x : int32 (toInt32 x).
Proof.
  unfold int32, toInt32.
  pose proof (Z.mod_pos_bound (x + 2 ^ 31) (2 ^ 32) ltac:(lia)). lia.
Qed.

Lemma toInt32_shift x k : toInt32 (x + 2 ^ 32 * k) = toInt32 x.
Proof.
  unfold toInt32. f_equal.
  replace (x + 2 ^ 32 * k + 2 ^ 31) with (x + 2 ^ 31 + k * 2 ^ 32) by lia.
  apply Z.mod_add. lia.
Qed.

Lemma toInt32_eq x : exists k, toInt32 x = x + 2 ^ 32 * k.
Proof.
  exists (- ((x + 2 ^ 31) / 2 ^ 32)). unfold toInt32.
  pose proof (Z.div_mod (x + 2 ^ 31) (2 ^ 32) ltac:(lia)). lia.
Qed.

Lemma toInt32_id x : int32 x -> toInt32 x = x.
Proof.
  unfold int32, toInt32. intros H.
  rewrite Z.mod_small by lia. lia.
Qed.

Lemma hash_step_poly p c : hash_step (toInt32 p) c = toInt32 (31 * p + c).
Proof.
  unfold hash_step. rewrite Z.shiftl_mul_pow2 by lia.
  destruct (toInt32_eq p) as [k Hk].
  destruct (toInt32_eq (toInt32 p * 2 ^ 5)) as [k' Hk'].
  rewrite Hk', Hk.
  replace ((p + 2 ^ 32 * k) * 2 ^ 5 + 2 ^ 32 * k' - (p + 2 ^ 32 * k) + c)
    with (31 * p + c + 2 ^ 32 * (31 * k + k')) by lia.
  apply toInt32_shift.
Qed.

Lemma hash_fold_poly s h p :
  h = toInt32 p ->
  fold_left hash_step s h = toInt32 (fold_left (fun h c => 31 * h + c) s p).
Proof.
  revert h p. induction s as [|c s IH]; intros h p ->; [reflexivity|].
  simpl. apply IH, hash_step_poly.
Qed.

Lemma hash_loop_is_poly31_range s : - 2 ^ 31 <= hash_loop s < 2 ^ 31.
Proof.
  unfold hash_loop. rewrite (hash_fold_poly s 0 0 eq_refl).
  apply toInt32_range.
Qed.

(** X4. The loop of [hash] computes the polynomial of the code units in
    base 31, reduced to a 32-bit signed integer: the shift, the
    subtraction and [|= 0] at every turn never lose more than the wrap. *)
Theorem hash_loop_is_poly31 (s : jsstring) :
  hash_loop s = toInt32 (poly31 s) /\ int32 (hash_loop s).
Proof.
  split; [apply hash_fold_poly; reflexivity|].
  apply hash_loop_is_poly31_range.
Qed.

Lemma digits_fold d d' :
  fold_left (fun n c => 10 * n + (c - 48)) (js (NilEmpty.string_of_uint d))
    (Z.of_N (Unsigned.of_lu d'))
  = Z.of_N (Unsigned.of_lu (Decimal.revapp d d')).
Proof.
  revert d'. induction d; intros d'; [reflexivity|..];
    simpl Decimal.revapp; rewrite <- IHd; simpl fold_left; f_equal;
    cbn [Unsigned.of_lu]; lia.
Qed.

Lemma digits_value_of_uint d :
  digits_value (js (NilEmpty.string_of_uint d)) = Z.of_N (N.of_uint d).
Proof.
  unfold digits_value.
  etransitivity; [exact (digits_fold d Decimal.Nil)|].
  unfold N.of_uint. now rewrite Unsigned.of_uint_alt.
Qed.

Lemma digits_value_String_of_nat n :
  0 <= n -> digits_value (String_of_nat n) = n.
Proof.
  intros Hn. unfold String_of_nat, NilZero.string_of_uint.
  pose proof (DecimalN.Unsigned.of_to (Z.to_N n)) as E.
  destruct (N.to_uint (Z.to_N n)) eqn:Ed;
    try (rewrite digits_value_of_uint, E; lia).
  simpl in E. unfold digits_value. simpl. lia.
Qed.

Lemma is_digit_of_uint d :
  Forall (fun c => is_digit c = true) (js (NilEmpty.string_of_uint d)).
Proof. induction d; simpl; constructor; try exact IHd; reflexivity. Qed.

Lemma String_of_nat_digits n :
  Forall (fun c => is_digit c = true) (String_of_nat n)
  /\ String_of_nat n <> [].
Proof.
  unfold String_of_nat, NilZero.string_of_uint.
  destruct (N.to_uint (Z.to_N n)) eqn:Ed;
    (split; [try apply is_digit_of_uint | discriminate]).
  repeat constructor.
Qed.

Lemma hash_is_decimal_digits s :
  Forall (fun c => is_digit c = true) (hash s).
Proof. unfold hash. apply String_of_nat_digits. Qed.

(** X5. [hash] gives a non-empty string of decimal digits: the numeral of
    the absolute value of the 32-bit sum, a number from 0 to 2^31. *)
Theorem hash_is_decimal (s : jsstring) :
  Forall (fun c => is_digit c = true) (hash s)
  /\ hash s <> []
  /\ digits_value (hash s) = Z.abs (hash_loop s)
  /\ 0 <= digits_value (hash s) <= 2 ^ 31.
Proof.
  unfold hash. destruct (String_of_nat_digits (Z.abs (hash_loop s))) as [H1 H2].
  split; [exact H1|]. split; [exact H2|].
  rewrite digits_value_String_of_nat by lia.
  split; [reflexivity|].
  destruct (hash_loop_is_poly31_range s). lia.
Qed.

Lemma poly31_from a h :
  fold_left (fun h c => 31 * h + c) a h
  = h * 31 ^ Z.of_nat (length a) + poly31 a.
Proof.
  unfold poly31. revert h. induction a as [|c a IH]; intros h.
  - simpl. lia.
  - simpl fold_left. rewrite (IH (31 * h + c)), (IH (31 * 0 + c)).
    change (length (c :: a)) with (S (length a)).
    rewrite Nat2Z.inj_succ, Z.pow_succ_r by lia. lia.
Qed.

Lemma poly31_app a b :
  poly31 (a ++ b) = poly31 a * 31 ^ Z.of_nat (length b) + poly31 b.
Proof.
  unfold poly31 at 1. rewrite fold_left_app. apply poly31_from.
Qed.

(** X6. The hash does not tell apart two URLs that differ in a part of the
    same length and with the same base-31 value: they get the same
    identifier, so that two sections of one tree can share it. *)
Theorem hash_collides (p a b q : jsstring) :
  length a = length b -> poly31 a = poly31 b ->
  hash (p ++ a ++ q) = hash (p ++ b ++ q)
  /\ acc_id (p ++ a ++ q) = acc_id (p ++ b ++ q).
Proof.
  intros Hl Hp.
  assert (E : hash_loop (p ++ a ++ q) = hash_loop (p ++ b ++ q)).
  { unfold hash_loop.
    rewrite (hash_fold_poly (p ++ a ++ q) 0 0 eq_refl),
      (hash_fold_poly (p ++ b ++ q) 0 0 eq_refl).
    fold (poly31 (p ++ a ++ q)). fold (poly31 (p ++ b ++ q)).
    rewrite !poly31_app, !length_app, Hl, Hp. reflexivity. }
  unfold acc_id, hash. rewrite E. split; reflexivity.
Qed.

Lemma hash_collides_witness :
  js "/Aa/" <> js "/BB/"
  /\ acc_id (js "/Aa/") = acc_id (js "/BB/").
Proof.
  split; [discriminate|].
  destruct (hash_collides (js "/") (js "Aa") (js "BB") (js "/")
              eq_refl eq_refl) as [_ H].
  exact H.
Defined.

End HashFacts.

(** ** The theme, further *)

Section ThemeMore.

Import Theme.

Lemma toggleTheme_next (p : Page) :
  exists v, (v = js "light" \/ v = js "dark")
            /\ toggleTheme p
               = {| root := <[js "data-theme" := v]> (root p);
                    localStorage := <[js "theme" := v]> (localStorage p) |}.
Proof.
  unfold toggleTheme.
  destruct (strict_eq (root p !! js "data-theme") (js "dark"));
    eexists; (split; [|reflexivity]); auto.
Qed.

Lemma applyStoredTheme_stored (r ls : gmap (list Z) (list Z)) (v : jsstring) :
  v = js "light" \/ v = js "dark" ->
  ls !! js "theme" = Some v ->
  applyStoredTheme {| root := r; localStorage := ls |}
  = {| root := <[js "data-theme" := v]> r; localStorage := ls |}.
Proof.
  intros Hv Hs. unfold applyStoredTheme. simpl. rewrite Hs.
  rewrite !strict_eq_Some.
  destruct Hv as [-> | ->].
  - reflexivity.
  - rewrite (bool_decide_eq_true_2 (js "dark" = js "dark") eq_refl).
    rewrite orb_true_r. reflexivity.
Qed.

(** X7. What a toggle stores is what the next page load applies: after a
    toggle the stored value and the attribute are the same, [light] or
    [dark], and [applyStoredTheme] on a page with that storage, whatever
    the attributes of its root, sets the attribute to it. *)
Theorem toggle_then_reload (p : Page) (r : gmap (list Z) (list Z)) :
  let p' := toggleTheme p in
  let reloaded := applyStoredTheme {| root := r; localStorage := localStorage p' |} in
  localStorage p' !! js "theme" = root p' !! js "data-theme"
  /\ (root p' !! js "data-theme" = Some (js "light")
      \/ root p' !! js "data-theme" = Some (js "dark"))
  /\ root reloaded !! js "data-theme" = root p' !! js "data-theme"
  /\ localStorage reloaded = localStorage p'.
Proof.
  intros p' reloaded. unfold reloaded, p'.
  destruct (toggleTheme_next p) as (v & Hv & ->). simpl.
  rewrite (applyStoredTheme_stored r _ v Hv (lookup_insert_eq _ _ _)).
  simpl. rewrite !lookup_insert_eq.
  split; [reflexivity|]. split; [destruct Hv as [-> | ->]; auto|].
  split; reflexivity.
Qed.

(** X8. A toggle writes one attribute and one stored key and nothing
    else, and from the first toggle on the page alternates between two
    states: three toggles are one. *)
Theorem toggle_is_local_and_alternates (p : Page) :
  (forall k, k <> js "data-theme" ->
             root (toggleTheme p) !! k = root p !! k)
  /\ (forall k, k <> js "theme" ->
                localStorage (toggleTheme p) !! k = localStorage p !! k)
  /\ toggleTheme (toggleTheme (toggleTheme p)) = toggleTheme p.
Proof.
  split; [|split].
  - intros k Hk. unfold toggleTheme. simpl.
    apply lookup_insert_ne. congruence.
  - intros k Hk. unfold toggleTheme. simpl.
    apply lookup_insert_ne. congruence.
  - unfold toggleTheme at 1 2. simpl.
    rewrite !lookup_insert_eq, !insert_insert_eq, !strict_eq_Some.
    unfold toggleTheme.
    destruct (strict_eq (root p !! js "data-theme") (js "dark")); reflexivity.
Qed.

Lemma toggle_is_local_and_alternates_witness :
  root (toggleTheme {| root := {[ js "lang" := js "en" ]};
                       localStorage := ∅ |}) !! js "lang"
  = Some (js "en").
Proof.
  destruct (toggle_is_local_and_alternates
              {| root := {[ js "lang" := js "en" ]}; localStorage := ∅ |})
    as (H & _).
  rewrite (H (js "lang")) by discriminate. reflexivity.
Defined.

End ThemeMore.

(** ** The drawer, further *)

Section DrawerMore.

Import Drawer.

Lemma handle_cases (e : event) (d : Dom) :
  handle e d = d \/ handle e d = closeDrawer d \/ handle e d = openDrawer d.
Proof.
  destruct e; simpl.
  - destruct (menuToggle d), (drawer d) as [[|]|]; auto.
  - destruct (menuClose d); auto.
  - destruct (drawer d), on_drawer; auto.
  - destruct (drawer d); auto.
    destruct (bool_decide (key = js "Escape") && negb (hasHidden d)); auto.
  - destruct (wide width); auto.
Qed.

Lemma consistent_has_drawer (d : Dom) :
  consistent d -> exists h, drawer d = Some h.
Proof. intros [(H & _) | (H & _)]; eauto. Qed.

Lemma handle_consistent (e : event) (d : Dom) :
  consistent d -> consistent (handle e d).
Proof.
  intros H. destruct (consistent_has_drawer d H) as [h Hd].
  destruct (handle_cases e d) as [-> | [-> | ->]]; [exact H | |].
  - left. exact (closeDrawer_closed d h Hd).
  - right. exact (openDrawer_opened d h Hd).
Qed.

(** X9. The three effects never come apart: from a page where the drawer
    is hidden, the toggle not expanded and the page scrolling, every
    sequence of events leaves either that state or the drawer shown, the
    toggle expanded and the scrolling stopped. *)
Theorem drawer_stays_consistent (es : list event) (d : Dom) :
  consistent d -> consistent (run es d).
Proof.
  revert d. induction es as [|e es IH]; intros d H; [exact H|].
  simpl. apply IH, handle_consistent, H.
Qed.

Lemma drawer_stays_consistent_witness :
  consistent
    (run [ToggleClick; KeyDown (js "a"); Resize 1200; ToggleClick]
       {| drawer := Some true; menuToggle := Some (Some (js "false"));
          menuClose := true; overflow := [] |}).
Proof.
  apply drawer_stays_consistent. left. repeat split.
  simpl. intros a Ha. injection Ha as <-. reflexivity.
Defined.

Lemma openDrawer_closeDrawer (d : Dom) :
  is_opened d -> openDrawer (closeDrawer d) = d.
Proof.
  destruct d as [dr mt mc ov]. unfold is_opened. simpl.
  intros (-> & Hmt & ->). unfold openDrawer, closeDrawer, set_expanded. simpl.
  destruct mt as [a|]; [|reflexivity].
  rewrite (Hmt a eq_refl). reflexivity.
Qed.

(** X10. Where there is a toggle button, a click on it opens a closed
    drawer and closes an open one, and two clicks give the page back. *)
Theorem toggle_click_flips (d : Dom) (a : option jsstring) :
  menuToggle d = Some a ->
  (is_closed d ->
   handle ToggleClick d = openDrawer d
   /\ is_opened (handle ToggleClick d)
   /\ handle ToggleClick (handle ToggleClick d) = d)
  /\ (is_opened d ->
      handle ToggleClick d = closeDrawer d
      /\ is_closed (handle ToggleClick d)
      /\ handle ToggleClick (handle ToggleClick d) = d).
Proof.
  intros Hm. split.
  - intros Hc. pose proof Hc as (Hd & _).
    assert (E : handle ToggleClick d = openDrawer d).
    { simpl. rewrite Hm, Hd. reflexivity. }
    rewrite E. split; [reflexivity|].
    split; [exact (openDrawer_opened d true Hd)|].
    assert (E2 : handle ToggleClick (openDrawer d)
                 = closeDrawer (openDrawer d)).
    { unfold openDrawer, set_expanded. rewrite Hd, Hm. reflexivity. }
    rewrite E2. apply (closeDrawer_openDrawer d Hc).
  - intros Ho. pose proof Ho as (Hd & _).
    assert (E : handle ToggleClick d = closeDrawer d).
    { simpl. rewrite Hm, Hd. reflexivity. }
    rewrite E. split; [reflexivity|].
    split; [exact (closeDrawer_closed d false Hd)|].
    assert (E2 : handle ToggleClick (closeDrawer d)
                 = openDrawer (closeDrawer d)).
    { unfold closeDrawer, set_expanded. rewrite Hd, Hm. reflexivity. }
    rewrite E2. apply (openDrawer_closeDrawer d Ho).
Qed.

Lemma toggle_click_flips_witness :
  let closed := {| drawer := Some true;
                   menuToggle := Some (Some (js "false"));
                   menuClose := false; overflow := [] |} in
  handle ToggleClick (handle ToggleClick closed) = closed.
Proof.
  intros closed.
  destruct (toggle_click_flips closed (Some (js "false")) eq_refl) as [H _].
  apply H. repeat split. simpl. intros a Ha. injection Ha as <-. reflexivity.
Defined.

(** X11. Without a drawer element nothing the listeners do changes the
    page, whatever the events. *)
Theorem no_drawer_no_effect (es : list event) (d : Dom) :
  drawer d = None -> run es d = d.
Proof.
  intros Hd. induction es as [|e es IH]; [reflexivity|].
  simpl. replace (handle e d) with d; [exact IH|].
  destruct (handle_cases e d) as [-> | [-> | ->]]; [reflexivity | |].
  - unfold closeDrawer. now rewrite Hd.
  - unfold openDrawer. now rewrite Hd.
Qed.

Lemma no_drawer_no_effect_witness :
  let d := {| drawer := None; menuToggle := Some None;
              menuClose := true; overflow := [] |} in
  run [ToggleClick; CloseClick; Resize 1400; KeyDown (js "Escape")] d = d.
Proof. intros d. apply no_drawer_no_effect. reflexivity. Defined.

Lemma handle_harmless (e : event) (d : Dom) :
  is_open d -> harmless e -> handle e d = d.
Proof.
  unfold is_open. intros Ho Hh. destruct e; simpl in *; try contradiction.
  - rewrite Ho, Hh. reflexivity.
  - rewrite Ho. rewrite (bool_decide_eq_false_2 _ Hh). reflexivity.
  - unfold wide. destruct (Z.leb_spec 981 width); [lia | reflexivity].
Qed.

Lemma closeDrawer_changes (d : Dom) : is_open d -> closeDrawer d <> d.
Proof.
  unfold is_open, closeDrawer. intros Ho E. rewrite Ho in E.
  apply (f_equal drawer) in E. simpl in E. congruence.
Qed.

Lemma handle_open_cases (e : event) (d : Dom) :
  is_open d ->
  (handle e d = d /\ (harmless e \/ unregistered e d))
  \/ (handle e d = closeDrawer d /\ ~ (harmless e \/ unregistered e d)).
Proof.
  unfold is_open. intros Ho. destruct e as [| |b|key|w]; simpl; rewrite ?Ho.
  - destruct (menuToggle d) as [a|]; [right | left; auto].
    split; [reflexivity|]. intros [[]|H]; discriminate H.
  - destruct (menuClose d); [right | left; auto].
    split; [reflexivity|]. intros [[]|H]; discriminate H.
  - destruct b; [right | left; auto].
    split; [reflexivity|]. intros [H|[]]; discriminate H.
  - unfold hasHidden. rewrite Ho. simpl. rewrite andb_true_r.
    destruct (decide (key = js "Escape")) as [E|E].
    + right. rewrite (bool_decide_eq_true_2 _ E).
      split; [reflexivity|]. intros [H|[]]. exact (H E).
    + left. rewrite (bool_decide_eq_false_2 _ E). auto.
  - unfold wide. destruct (Z.leb_spec 981 w) as [Hw|Hw]; [right | left; auto].
    split; [reflexivity|]. intros [Hlt|[]]. lia.
Qed.

(** X12. While the drawer is open, the runs of a listener that leave the
    page as it is are exactly these: the drawer's own click listener run
    for a target that is not the container, the keydown listener run for
    a key other than Escape, the resize listener run at less than 981px,
    and a click on a button that is missing. Any sequence of the first
    three leaves the page unchanged; every other run, a click on the
    close button or on the toggle among them, closes the drawer. *)
Theorem open_drawer_stays_open (es : list event) (d : Dom) :
  is_open d ->
  (Forall harmless es -> run es d = d)
  /\ (forall e, handle e d = d <-> harmless e \/ unregistered e d)
  /\ (forall e, ~ (harmless e \/ unregistered e d) ->
      handle e d = closeDrawer d
      /\ handle e d <> d
      /\ is_closed (handle e d)).
Proof.
  intros Ho. split; [|split].
  - intros H. induction H as [|e es He _ IH]; [reflexivity|].
    simpl. rewrite (handle_harmless e d Ho He). exact IH.
  - intros e. destruct (handle_open_cases e d Ho) as [[E H]|[E H]].
    + split; [intros _; exact H | intros _; exact E].
    + split; [|intros H'; contradiction].
      rewrite E. intros E'. destruct (closeDrawer_changes d Ho E').
  - intros e Hn. destruct (handle_open_cases e d Ho) as [[_ H]|[E _]];
      [contradiction|].
    rewrite E. split; [reflexivity|].
    split; [exact (closeDrawer_changes d Ho)|].
    exact (closeDrawer_closed d false Ho).
Qed.

Lemma open_drawer_stays_open_witness :
  let d := {| drawer := Some false; menuToggle := Some (Some (js "true"));
              menuClose := true; overflow := js "hidden" |} in
  run [DrawerClick false; KeyDown (js "Enter"); Resize 980] d = d
  /\ is_closed (handle CloseClick d)
  /\ is_closed (handle ToggleClick d).
Proof.
  intros d.
  destruct (open_drawer_stays_open
              [DrawerClick false; KeyDown (js "Enter"); Resize 980] d eq_refl)
    as (Hrun & _ & Hclose).
  split; [|split].
  - apply Hrun.
    repeat constructor; simpl; (discriminate || lia || reflexivity).
  - apply (Hclose CloseClick). intros [[]|H]. discriminate H.
  - apply (Hclose ToggleClick). intros [[]|H]. discriminate H.
Defined.

End DrawerMore.

(** ** The hover menu, further *)

Section HoverMenuMore.

Import HoverMenu.
Local Open Scope nat_scope.
Local Set Warnings "-clear-no-such-hyp".

Lemma sync_clearCloseTimer (s : state) :
  inv_sync s -> inv_sync (clearCloseTimer s).
Proof.
  intros [H1 H2]. unfold clearCloseTimer.
  destruct (closeTimer s) as [h|]; [|split; assumption].
  split; simpl; [exact H1|].
  intros Hp. apply H2. intros E. rewrite E in Hp. apply Hp. reflexivity.
Qed.

Lemma sync_doClose (s : state) : inv_sync s -> inv_sync (doClose s).
Proof.
  intros [H1 H2]. unfold doClose.
  destruct (active s) as [a|] eqn:Ea; [|split; [rewrite Ea|]; assumption].
  split; simpl; [|exact H2]. rewrite H1. set_solver.
Qed.

Lemma sync_closeActive (b : bool) (s : state) :
  (b = false -> desktop s = true) ->
  inv_sync s -> inv_sync (closeActive b s).
Proof.
  intros Hb H. apply sync_clearCloseTimer in H.
  destruct (clearCloseTimer_fields s) as (Hd & _).
  unfold closeActive. destruct b; [apply sync_doClose, H|].
  destruct H as [H1 H2]. unfold setTimeout.
  split; simpl; [exact H1|]. intros _. rewrite Hd. auto.
Qed.

Lemma sync_openItem (li : item) (s : state) :
  inv_sync s -> inv_sync (openItem li s).
Proof.
  intros H. apply sync_clearCloseTimer in H. destruct H as [H1 H2].
  unfold openItem. set (s1 := clearCloseTimer s) in *.
  destruct (active s1) as [a|] eqn:Ea;
    [destruct (bool_decide (a ≠ li)) eqn:Eb|];
    split; simpl; auto; rewrite ?H1.
  - set_solver.
  - apply bool_decide_eq_false_1 in Eb.
    destruct (decide (a = li)); [set_solver | contradiction].
  - set_solver.
Qed.

Lemma sync_step (e : event) (s : state) :
  inv s -> inv_sync s -> inv_sync (step e s).
Proof.
  intros Hi H. destruct e; cbn [step].
  - destruct (desktop s); [apply sync_openItem, H | exact H].
  - destruct (desktop s) eqn:Hd; cbn [negb]; [|exact H].
    destruct to_submenu; [exact H | apply sync_closeActive; auto].
  - destruct (desktop s); [|exact H].
    apply sync_openItem, sync_clearCloseTimer, H.
  - destruct (desktop s) eqn:Hd; cbn [negb]; [|exact H].
    destruct to_item; [exact H | apply sync_closeActive; auto].
  - destruct (desktop s); cbn [negb]; [|exact H].
    destruct in_menubar; [exact H | apply sync_closeActive; [discriminate | exact H]].
  - destruct (desktop s); cbn [negb]; [|exact H].
    destruct (bool_decide (key = js "Escape"));
      [apply sync_closeActive; [discriminate | exact H] | exact H].
  - rewrite closeActive_set_desktop.
    pose proof (closeActive_true_pending s Hi) as Hp.
    destruct (sync_closeActive true s ltac:(discriminate) H) as [H1 H2].
    split; [exact H1|]. intros Hne. exfalso. apply Hne. exact Hp.
  - destruct H as [H1 H2]. split; simpl; assumption.
  - destruct (due h s); [|exact H]. apply sync_doClose.
    destruct H as [H1 H2]. split; simpl; [exact H1|].
    intros Hp. apply H2. intros E. rewrite E in Hp. apply Hp. reflexivity.
Qed.

Lemma sync_reachable (s : state) : reachable s -> inv_sync s.
Proof.
  intros (es & mq & h0 & t0 & ->).
  assert (H : inv (setup mq h0 t0) /\ inv_sync (setup mq h0 t0)).
  { split; [apply inv_setup|]. split; simpl; [reflexivity | congruence]. }
  revert H. generalize (setup mq h0 t0).
  induction es as [|e es IH]; intros s [Hi Hs]; [exact Hs|].
  simpl. apply IH. split; [apply inv_step, Hi | apply sync_step; assumption].
Qed.

Lemma narrow_is_idle (s : state) :
  inv s -> inv_sync s -> desktop s = false ->
  opened s = ∅ /\ active s = None /\ pending s = [].
Proof.
  intros Hi [H1 H2] Hd.
  pose proof (not_desktop_none_open s Hi Hd) as Ho.
  split; [exact Ho|]. split.
  - destruct (active s) as [a|]; [|reflexivity].
    rewrite Ho in H1. set_solver.
  - destruct (pending s) as [|t l]; [reflexivity|].
    rewrite H2 in Hd by discriminate. discriminate.
Qed.

(** X13. The variable [active] and the [is-open] class never disagree:
    after every sequence of events the items carrying the class are the
    active item, or none when [active] is [null]. *)
Theorem active_and_class_agree
  (es : list event) (mq : bool) (h0 : positive) (t0 : nat) :
  let s := run es (setup mq h0 t0) in
  opened s = match active s with
             | Some a => {[a]}
             | None => ∅
             end.
Proof.
  intros s. apply sync_open, sync_reachable.
  exists es, mq, h0, t0. reflexivity.
Qed.

(** X14. Escape, a pointer press outside the menu bar and a change of the
    media query close at once: after the event no item is open, [active]
    is [null] and no timer is left to run, whatever was open or pending
    before. *)
Theorem closes_immediately (s : state) (e : event) :
  reachable s -> closes_at_once e ->
  let s' := step e s in
  opened s' = ∅ /\ active s' = None /\ pending s' = [].
Proof.
  intros Hr He s'. pose proof (inv_reachable s Hr) as Hi.
  pose proof (sync_reachable s Hr) as Hs.
  assert (Hc : opened (closeActive true s) = ∅
               /\ active (closeActive true s) = None
               /\ pending (closeActive true s) = []).
  { split; [|split].
    - unfold closeActive. apply doClose_opened, inv_clearCloseTimer, Hi.
    - unfold closeActive. apply doClose_active.
    - apply closeActive_true_pending, Hi. }
  unfold s'. destruct e; simpl in He; try contradiction; cbn [step].
  - subst in_menubar. destruct (desktop s) eqn:Hd; cbn [negb]; [exact Hc|].
    apply narrow_is_idle; assumption.
  - subst key. destruct (desktop s) eqn:Hd; cbn [negb].
    + rewrite (bool_decide_eq_true_2 _ eq_refl). exact Hc.
    + apply narrow_is_idle; assumption.
  - rewrite closeActive_set_desktop. exact Hc.
Qed.

Lemma closes_immediately_witness :
  let s := run [ItemEnter 2; ItemLeave 2 false] (setup true 1%positive 0) in
  pending s <> []
  /\ opened (step (KeyDown (js "Escape")) s) = ∅
  /\ pending (step (KeyDown (js "Escape")) s) = [].
Proof.
  intros s. split; [discriminate|].
  assert (Hr : reachable s).
  { exists [ItemEnter 2; ItemLeave 2 false], true, 1%positive, 0.
    reflexivity. }
  destruct (closes_immediately s (KeyDown (js "Escape")) Hr eq_refl)
    as (H1 & _ & H3).
  split; [exact H1 | exact H3].
Defined.

Lemma browser_moves_idle (es : list event) (s : state) :
  pending s = [] -> forallb is_browser_move es = true ->
  opened (run es s) = opened s /\ active (run es s) = active s
  /\ pending (run es s) = [].
Proof.
  revert s. induction es as [|e es IH]; intros s Hp Hes; [auto|].
  simpl in Hes. apply andb_prop in Hes as [He Hes]. simpl run.
  destruct e; try discriminate; cbn [step].
  - destruct (IH (set_now (now s + ms) s) Hp Hes) as (H1 & H2 & H3). auto.
  - unfold due. rewrite Hp. simpl. apply IH; assumption.
Qed.

(** X15. Once the pointer has entered an item on a desktop viewport, time
    and timers alone do not close it: whatever timers the browser runs
    and however long it waits, the item stays the open one. A close that
    was scheduled before cannot reach the newly opened item. *)
Theorem stale_timer_never_closes (s : state) (li : item) (es : list event) :
  reachable s -> desktop s = true ->
  forallb is_browser_move es = true ->
  opened (run es (step (ItemEnter li) s)) = {[li]}
  /\ active (run es (step (ItemEnter li) s)) = Some li.
Proof.
  intros Hr Hd Hes. pose proof (inv_reachable s Hr) as Hi.
  cbn [step]. rewrite Hd.
  destruct (browser_moves_idle es (openItem li s)
              (openItem_pending li s Hi) Hes) as (H1 & H2 & _).
  rewrite H1, H2. split; [apply openItem_opened, Hi | reflexivity].
Qed.

Lemma stale_timer_never_closes_witness :
  let s := run [ItemEnter 0; ItemLeave 0 false] (setup true 1%positive 0) in
  let es := [Elapse 500; TimerFires 1%positive] in
  pending s = [(1%positive, 120)]
  /\ opened (run es (step (ItemEnter 1) s)) = {[1]}.
Proof.
  intros s es. split; [reflexivity|].
  assert (Hr : reachable s).
  { exists [ItemEnter 0; ItemLeave 0 false], true, 1%positive, 0.
    reflexivity. }
  destruct (stale_timer_never_closes s 1 es Hr eq_refl eq_refl) as [H _].
  exact H.
Defined.

(** X16. The listener of a submenu mirrors the one of its item. With the
    item open, the pointer leaving the submenu for the item changes
    nothing; leaving it for anywhere else starts one timer, due 120ms
    later, that does not run before and, when it runs, leaves no item
    open. *)
Theorem leaving_submenu (s : state) (li : item) :
  reachable s -> li ∈ opened s ->
  step (SubmenuLeave li true) s = s
  /\ (let s1 := step (SubmenuLeave li false) s in
      let h := next_handle s in
      pending s1 = [(h, now s + 120)]
      /\ opened s1 = opened s
      /\ (forall d, d < 120 ->
          step (TimerFires h) (step (Elapse d) s1) = step (Elapse d) s1)
      /\ (forall d, 120 <= d ->
          let s2 := step (TimerFires h) (step (Elapse d) s1) in
          active s2 = None /\ opened s2 = ∅ /\ pending s2 = [])).
Proof.
  intros Hr Hli. pose proof (inv_reachable s Hr) as H.
  destruct (open_item_is_active s li H Hli) as [Hd Ha].
  split; [cbn [step]; rewrite Hd; reflexivity|].
  intros s1 h.
  assert (E1 : s1 = closeActive false s).
  { unfold s1. cbn [step]. rewrite Hd. reflexivity. }
  assert (H1 : inv s1) by (rewrite E1; apply inv_closeActive, H).
  destruct (closeActive_false_pending s H) as [Hp _].
  destruct (closeActive_false_fields s) as (_ & _ & Ho1 & Hn1).
  rewrite <- E1 in Hp, Ho1, Hn1. fold h in Hp.
  split; [exact Hp|]. split; [exact Ho1|]. split.
  - intros d Hlt. apply (timer_early h (now s + 120) d s1 Hp). lia.
  - intros d Hle. apply (timer_runs h (now s + 120) d s1 H1 Hp). lia.
Qed.

Lemma leaving_submenu_witness :
  let s := run [SubmenuEnter 3] (setup true 7%positive 40) in
  3 ∈ opened s
  /\ pending (step (SubmenuLeave 3 false) s) = [(7%positive, 160)].
Proof.
  intros s.
  assert (Hr : reachable s).
  { exists [SubmenuEnter 3], true, 7%positive, 40. reflexivity. }
  assert (Hli : 3 ∈ opened s) by (unfold s; simpl; set_solver).
  split; [exact Hli|].
  destruct (leaving_submenu s 3 Hr Hli) as (_ & H & _). exact H.
Defined.

Lemma guarded_step_narrow (e : event) (s : state) :
  desktop s = false -> is_guarded e = true -> step e s = s.
Proof.
  intros Hd He. destruct e; try discriminate; cbn [step]; rewrite Hd;
    reflexivity.
Qed.

Lemma ignored_step (e : event) (s : state) : is_ignored e -> step e s = s.
Proof.
  intros He. destruct e; simpl in He; try contradiction; cbn [step].
  - subst. destruct (desktop s); reflexivity.
  - rewrite (bool_decide_eq_false_2 _ He). destruct (desktop s); reflexivity.
Qed.

(** X17. Below the desktop width the menu is inert: in every state the
    page can be in with the media query not matching, no item is open
    and no timer is left to run, and pointer and key events, in any
    number, change nothing. On any viewport a pointer press inside the
    menu bar and a key that is not Escape change nothing. *)
Theorem menu_inert (s : state) (es : list event) :
  (reachable s -> desktop s = false ->
   (opened s = ∅ /\ active s = None /\ pending s = [])
   /\ (forallb is_guarded es = true -> run es s = s))
  /\ (Forall is_ignored es -> run es s = s).
Proof.
  split.
  - intros Hr Hd. split.
    + apply narrow_is_idle;
        [apply inv_reachable | apply sync_reachable |]; assumption.
    + clear Hr. induction es as [|e es IH]; [reflexivity|].
      simpl. intros [He Hes]%andb_prop.
      rewrite (guarded_step_narrow e s Hd He). exact (IH Hes).
  - intros H. induction H as [|e es He _ IH]; [reflexivity|].
    simpl. rewrite (ignored_step e s He). exact IH.
Qed.

Lemma menu_inert_witness :
  let s := run [ItemEnter 0; BreakpointChange] (setup true 1%positive 0) in
  desktop s = false
  /\ opened s = ∅
  /\ run [ItemEnter 1; SubmenuEnter 1; KeyDown (js "Escape")] s = s.
Proof.
  intros s.
  assert (Hr : reachable s).
  { exists [ItemEnter 0; BreakpointChange], true, 1%positive, 0.
    reflexivity. }
  assert (Hd : desktop s = false) by reflexivity.
  split; [exact Hd|].
  destruct (menu_inert s [ItemEnter 1; SubmenuEnter 1; KeyDown (js "Escape")])
    as [H _].
  destruct (H Hr Hd) as [(Ho & _) Hrun].
  split; [exact Ho | exact (Hrun eq_refl)].
Defined.

End HoverMenuMore.

(** ** The toggle buttons of the accordion *)

Section AccordionClickFacts.

Import Accordion AccordionClick.

Variable css_string : jsstring -> option jsstring.

(** A quoted string of word characters denotes itself. *)
Hypothesis css_string_word :
  forall s, Forall (fun c => Toc.is_word c = true) s -> css_string s = Some s.

Lemma acc_id_word u : Forall (fun c => Toc.is_word c = true) (acc_id u).
Proof.
  unfold acc_id. apply Forall_app. split; [repeat constructor|].
  eapply Forall_impl; [apply (hash_is_decimal_digits u)|].
  intros c Hc. unfold is_digit in Hc. unfold Toc.is_word. rewrite Hc.
  reflexivity.
Qed.

Lemma click_acc_id u secs :
  click css_string (acc_id u) secs = flip_first (acc_id u) secs.
Proof.
  unfold click.
  rewrite cssEscape_acc_id, (css_string_word _ (acc_id_word u)).
  reflexivity.
Qed.

Lemma flip_first_split v pre a post :
  Forall (fun b => data_acc b <> v) pre -> data_acc a = v ->
  flip_first v (pre ++ a :: post) = pre ++ flip a :: post.
Proof.
  intros Hpre Ha. induction Hpre as [|b pre Hb _ IH]; simpl.
  - rewrite (bool_decide_eq_true_2 _ Ha). reflexivity.
  - rewrite (bool_decide_eq_false_2 _ Hb), IH. reflexivity.
Qed.

Lemma flip_first_none v secs :
  Forall (fun b => data_acc b <> v) secs -> flip_first v secs = secs.
Proof.
  induction 1 as [|b l Hb _ IH]; simpl; [reflexivity|].
  rewrite (bool_decide_eq_false_2 _ Hb), IH. reflexivity.
Qed.

(** X18. A click on the toggle button of a section flips the first
    element, in document order, that carries the identifier, to [true]
    unless it was [true] and to [false] if it was; every other element
    stays as it is, those of other sections and any later one with the
    same identifier; and when no element carries the identifier nothing
    changes. *)
Theorem click_flips_first_only (u : jsstring) (pre post : list element)
  (a : element) :
  Forall (fun b => data_acc b <> acc_id u) pre ->
  (data_acc a = acc_id u ->
   click css_string (acc_id u) (pre ++ a :: post) = pre ++ flip a :: post
   /\ data_acc (flip a) = acc_id u
   /\ (aria_expanded a = Some (js "true") ->
       aria_expanded (flip a) = Some (js "false"))
   /\ (aria_expanded a <> Some (js "true") ->
       aria_expanded (flip a) = Some (js "true")))
  /\ click css_string (acc_id u) pre = pre.
Proof.
  intros Hpre. split.
  - intros Ha. rewrite click_acc_id.
    split; [apply flip_first_split; assumption|].
    split; [exact Ha|]. unfold flip. simpl. split; intros H.
    + rewrite (bool_decide_eq_true_2 _ H). reflexivity.
    + rewrite (bool_decide_eq_false_2 _ H). reflexivity.
  - rewrite click_acc_id. apply flip_first_none, Hpre.
Qed.

Lemma flip_flip a :
  aria_expanded a = Some (js "true") \/ aria_expanded a = Some (js "false") ->
  flip (flip a) = a.
Proof.
  destruct a as [i e]. unfold flip. simpl. intros [-> | ->]; reflexivity.
Qed.

Lemma flip_first_twice v secs :
  two_valued secs -> flip_first v (flip_first v secs) = secs.
Proof.
  induction 1 as [|a l Ha _ IH]; simpl; [reflexivity|].
  destruct (bool_decide (data_acc a = v)) eqn:E; simpl.
  - apply bool_decide_eq_true_1 in E.
    rewrite (bool_decide_eq_true_2 _ E), (flip_flip a Ha). reflexivity.
  - rewrite E, IH. reflexivity.
Qed.

Lemma flip_first_two_valued v secs :
  two_valued secs -> two_valued (flip_first v secs).
Proof.
  induction 1 as [|a l Ha Hl IH]; simpl; [constructor|].
  destruct (bool_decide (data_acc a = v)).
  - constructor; [|exact Hl]. unfold flip. simpl.
    destruct (bool_decide (aria_expanded a = Some (js "true"))); auto.
  - constructor; assumption.
Qed.

(** X19. Sections whose [aria-expanded] is [true] or [false], as all are
    after rendering, stay so through clicks, and a second click on the
    same button undoes the first. *)
Theorem click_twice_restores (u : jsstring) (secs : list element) :
  two_valued secs ->
  two_valued (click css_string (acc_id u) secs)
  /\ click css_string (acc_id u) (click css_string (acc_id u) secs) = secs.
Proof.
  intros H. rewrite !click_acc_id.
  split; [apply flip_first_two_valued, H | apply flip_first_twice, H].
Qed.

End AccordionClickFacts.

Lemma click_flips_first_only_witness :
  let i := Accordion.acc_id (js "/BB/") in
  let first := {| AccordionClick.data_acc := Accordion.acc_id (js "/Aa/");
                  AccordionClick.aria_expanded := Some (js "false") |} in
  let second := {| AccordionClick.data_acc := i;
                   AccordionClick.aria_expanded := Some (js "false") |} in
  AccordionClick.click Some i [first; second]
  = [AccordionClick.flip first; second].
Proof.
  intros i first second.
  destruct (click_flips_first_only Some (fun s _ => eq_refl)
              (js "/BB/") [] [second] first ltac:(constructor)) as [H _].
  destruct (H ltac:(vm_compute; reflexivity)) as [E _]. exact E.
Defined.

Lemma click_twice_restores_witness :
  let secs := [{| AccordionClick.data_acc := Accordion.acc_id (js "/a/");
                  AccordionClick.aria_expanded := Some (js "false") |}] in
  AccordionClick.click Some (Accordion.acc_id (js "/a/"))
    (AccordionClick.click Some (Accordion.acc_id (js "/a/")) secs)
  = secs.
Proof.
  intros secs.
  destruct (click_twice_restores Some (fun s _ => eq_refl) (js "/a/") secs)
    as [_ H]; [|exact H].
  constructor; [right; reflexivity | constructor].
Defined.

(** ** The table of contents, further *)

Section TocMore.

Import Accordion Toc.

Variable toLowerCase : jsstring -> jsstring.

Lemma strip_kept (s : jsstring) :
  Forall (fun c => is_word c || is_space c || (c =? 45) = true)
    (replace_class_empty not_word_space_hyphen s).
Proof.
  induction s as [|c s IH]; simpl; [constructor|].
  unfold not_word_space_hyphen at 1.
  destruct (is_word c || is_space c || (c =? 45)) eqn:E; simpl;
    [constructor; assumption | exact IH].
Qed.

Lemma replace_plus_units (s : jsstring) :
  Forall (fun c => is_word c || is_space c || (c =? 45) = true) s ->
  Forall (fun c => is_slug_unit c = true) (replace_plus is_space (js "-") s)
  /\ Forall (fun c => is_slug_unit c = true)
       (replace_plus_skip is_space (js "-") s).
Proof.
  induction 1 as [|c s Hc _ [IH1 IH2]]; [split; constructor|].
  cbn [replace_plus replace_plus_skip].
  destruct (is_space c) eqn:Es.
  - split; [|exact IH2]. apply Forall_app. split; [|exact IH2].
    repeat constructor.
  - assert (Hu : is_slug_unit c = true).
    { unfold is_slug_unit. rewrite orb_false_r in Hc. exact Hc. }
    split; constructor; assumption.
Qed.

Lemma slug_unit_plain (c : Z) :
  is_slug_unit c = true -> is_markup c = false /\ c <> 38.
Proof.
  unfold is_slug_unit, is_word, is_markup. intros H.
  split; [|intros ->; discriminate].
  destruct (Z.eqb_spec c 60) as [->|?]; [discriminate|].
  destruct (Z.eqb_spec c 62) as [->|?]; [discriminate|].
  destruct (Z.eqb_spec c 34) as [->|?]; [discriminate|].
  destruct (Z.eqb_spec c 39) as [->|?]; [discriminate|].
  reflexivity.
Qed.

Lemma slug_units (text : jsstring) :
  Forall (fun c => is_slug_unit c = true) (slug toLowerCase text).
Proof. unfold slug. apply replace_plus_units, strip_kept. Qed.

(** X20. Whatever the text of a heading and whatever [toLowerCase] does
    to it, the slug is made of word characters and hyphens only: it has
    no white space, no [&], [<], [>] or quote, and escaping leaves it
    as it is. *)
Theorem slug_is_safe (text : jsstring) :
  Forall (fun c => is_slug_unit c = true) (slug toLowerCase text)
  /\ Forall (fun c => is_space c = false) (slug toLowerCase text)
  /\ escapeHtml (slug toLowerCase text) = slug toLowerCase text.
Proof.
  pose proof (slug_units text) as H. split; [exact H|]. split.
  - eapply Forall_impl; [exact H|]. intros c Hc.
    unfold is_slug_unit, is_word in Hc. unfold is_space.
    rewrite !orb_true_iff, !andb_true_iff, !Z.leb_le, !Z.eqb_eq in Hc.
    repeat match goal with
           | |- context [?a <=? ?b] => destruct (Z.leb_spec a b); try lia
           | |- context [?a =? ?b] => destruct (Z.eqb_spec a b); try lia
           end.
  - apply escapeHtml_plain. eapply Forall_impl; [exact H|].
    intros c. apply slug_unit_plain.
Qed.

Lemma clean_slug (text : jsstring) : clean (slug toLowerCase text).
Proof.
  eapply Forall_impl; [apply slug_units|].
  intros c Hc. apply (slug_unit_plain c Hc).
Qed.

Lemma clean_assignId (h : Heading) :
  clean (id h) -> clean (id (assignId toLowerCase h)).
Proof.
  intros H. unfold assignId. destruct (id h) eqn:E; simpl.
  - apply clean_slug.
  - rewrite E. exact H.
Qed.

Lemma clean_String_of_nat n : clean (String_of_nat n).
Proof.
  eapply Forall_impl; [apply plain_String_of_nat|]. intros c [H _]. exact H.
Qed.

Lemma tocLink_shape (it : TocItem) :
  tocLink it
  = toc_link_start ++ item_id it ++ (dq ++ js " data-depth=" ++ dq)
    ++ String_of_nat (item_depth it) ++ (dq ++ js ">")
    ++ escapeHtml (item_text it) ++ js "</a>".
Proof. unfold tocLink, toc_link_start. rewrite <- !app_assoc. reflexivity. Qed.

Lemma tocLink_count (it : TocItem) (r : jsstring) :
  clean (item_id it) ->
  count_sub toc_link_start (tocLink it ++ r)
  = (1 + count_sub toc_link_start r)%nat.
Proof.
  intros Hid. rewrite tocLink_shape, <- !app_assoc.
  pose proof (clean_String_of_nat (item_depth it)) as Hd.
  pose proof (clean_escapeHtml (item_text it)) as Ht.
  repeat first
    [ rewrite count_sub_clean by (first [reflexivity | assumption])
    | erewrite count_sub_settled by (vm_compute; reflexivity) ].
  reflexivity.
Qed.

Lemma tocLinks_count (items : list TocItem) :
  Forall (fun it => clean (item_id it)) items ->
  count_sub toc_link_start (concat (List.map tocLink items)) = length items.
Proof.
  induction 1 as [|it items Hit _ IH]; [reflexivity|].
  cbn [List.map concat length].
  rewrite tocLink_count by exact Hit. now rewrite IH.
Qed.

(** X21. The table of contents has one link for each heading, in any
    number, whatever the texts of the headings hold, as long as the ids
    the headings came with have no [<], [>] or quote (the ids the script
    makes never have); without a heading it is the placeholder, which has
    no link. *)
Theorem toc_one_link_per_heading (hs : list Heading) :
  Forall (fun h => clean (id h)) hs ->
  let items := snd (scanHeadings toLowerCase hs) in
  length items = length hs
  /\ count_sub toc_link_start (renderToc items) = length hs
  /\ (hs = [] -> renderToc items = no_headings).
Proof.
  intros H items.
  assert (Hlen : length items = length hs).
  { unfold items, scanHeadings. simpl. now rewrite !length_map. }
  split; [exact Hlen|]. split; [|intros ->; reflexivity].
  assert (Hc : Forall (fun it => clean (item_id it)) items).
  { unfold items, scanHeadings. simpl.
    clear Hlen. induction H as [|h l Hh _ IH]; simpl; [constructor|].
    constructor; [apply clean_assignId, Hh | exact IH]. }
  rewrite <- Hlen. unfold renderToc.
  destruct items as [|it l] eqn:E; [reflexivity|].
  apply tocLinks_count, Hc.
Qed.

Lemma assignId_idem (h : Heading) :
  assignId toLowerCase (assignId toLowerCase h) = assignId toLowerCase h.
Proof.
  destruct (id h) eqn:E.
  - assert (A : assignId toLowerCase h
                = {| id := slug toLowerCase (textContent h);
                     textContent := textContent h;
                     tagName := tagName h |}).
    { unfold assignId. rewrite E. reflexivity. }
    rewrite A. unfold assignId. simpl.
    destruct (slug toLowerCase (textContent h)) eqn:Es; reflexivity.
  - assert (A : assignId toLowerCase h = h).
    { unfold assignId. rewrite E. reflexivity. }
    rewrite !A. reflexivity.
Qed.

(** X22. Scanning keeps the headings in number and order: a heading that
    has an id keeps it, every heading keeps its text, the entries carry
    the id and the text of the headings one by one with depth 3 for [H3]
    and 2 otherwise, and scanning a second time changes nothing. *)
Theorem scanHeadings_mirrors (hs : list Heading) :
  let hs' := fst (scanHeadings toLowerCase hs) in
  let items := snd (scanHeadings toLowerCase hs) in
  List.map textContent hs' = List.map textContent hs
  /\ (forall k h, hs !! k = Some h -> id h <> [] -> hs' !! k = Some h)
  /\ List.map item_id items = List.map id hs'
  /\ List.map item_text items = List.map textContent hs
  /\ List.map item_depth items
     = List.map (fun h => if bool_decide (tagName h = js "H3") then 3 else 2) hs
  /\ scanHeadings toLowerCase hs' = scanHeadings toLowerCase hs.
Proof.
  intros hs' items. unfold hs', items, scanHeadings. simpl.
  assert (Ht : forall h, textContent (assignId toLowerCase h) = textContent h).
  { intros h. unfold assignId. destruct (id h); reflexivity. }
  assert (Hg : forall h, tagName (assignId toLowerCase h) = tagName h).
  { intros h. unfold assignId. destruct (id h); reflexivity. }
  split; [rewrite map_map; apply map_ext; exact Ht|].
  split.
  { intros k h Hk Hid. rewrite list_lookup_fmap, Hk. simpl. f_equal.
    unfold assignId. destruct (id h); [contradiction | reflexivity]. }
  split; [rewrite map_map; reflexivity|].
  split; [rewrite !map_map; apply map_ext; intros h; simpl; apply Ht|].
  split; [rewrite !map_map; apply map_ext; intros h; simpl; now rewrite Hg|].
  assert (E : List.map (assignId toLowerCase) (List.map (assignId toLowerCase) hs)
              = List.map (assignId toLowerCase) hs).
  { rewrite map_map. apply map_ext. intros h. apply assignId_idem. }
  now rewrite E.
Qed.

End TocMore.

Lemma toc_one_link_per_heading_witness :
  let hs := [{| Toc.id := []; Toc.textContent := js "<b>Intro</b>";
                Toc.tagName := js "H2" |};
             {| Toc.id := js "faq"; Toc.textContent := js "FAQ";
                Toc.tagName := js "H3" |}] in
  count_sub Toc.toc_link_start
    (Toc.renderToc (snd (Toc.scanHeadings (List.map Toc.lower_ascii) hs)))
  = 2%nat.
Proof.
  intros hs.
  destruct (toc_one_link_per_heading (List.map Toc.lower_ascii) hs)
    as (_ & H & _); [|exact H].
  repeat constructor.
Defined.

Lemma scanHeadings_mirrors_witness :
  let h := {| Toc.id := js "faq"; Toc.textContent := js "FAQ";
              Toc.tagName := js "H3" |} in
  fst (Toc.scanHeadings (List.map Toc.lower_ascii) [h]) !! 0%nat = Some h.
Proof.
  intros h.
  destruct (scanHeadings_mirrors (List.map Toc.lower_ascii) [h])
    as (_ & H & _).
  apply (H 0%nat h eq_refl). discriminate.
Defined.

(** ** The accordion, further *)

(** A measure [F] of rendered strings that the opening of a branch raises
    by what its closing lowers, and that a leaf leaves alone, is the same
    after the rendering of a tree as before. *)
Section AccordionBalance.

Import Accordion.

Variable F : jsstring -> Z.
Variables kd ks : Z.

Hypothesis F_head_div :
  forall i t cls u r, clean i -> clean t -> clean cls -> clean u ->
    F (branch_head div_open i t cls u ++ r) = kd + F r.
Hypothesis F_tail_div :
  forall r, F (after_kids (js "div") ++ r) = - kd + F r.
Hypothesis F_head_section :
  forall i t cls u r, clean i -> clean t -> clean cls -> clean u ->
    F (branch_head section_open i t cls u ++ r) = ks + F r.
Hypothesis F_tail_section :
  forall r, F (after_kids (js "section") ++ r) = - ks + F r.
Hypothesis F_leaf :
  forall cls t u r, clean cls -> clean t -> clean u ->
    F (leaf_link cls t u ++ r) = F r.

Lemma balance_kids (f : NavNode -> jsstring) cs r :
  Forall (fun c => forall r, F (f c ++ r) = F r) cs ->
  F (concat (List.map f cs) ++ r) = F r.
Proof.
  induction 1 as [|c cs Hc _ IH]; simpl; [reflexivity|].
  now rewrite <- app_assoc, Hc, IH.
Qed.

Lemma balance_renderChild n : forall d r, F (renderChild n d ++ r) = F r.
Proof.
  induction n as [t u cs IH] using NavNode_ind_list. intros d r.
  destruct cs as [|c cs].
  - rewrite renderChild_leaf. apply F_leaf.
    + apply clean_class. repeat (constructor; try reflexivity).
    + apply clean_escapeHtml.
    + apply clean_escapeHtml.
  - rewrite renderChild_branch, <- !app_assoc.
    rewrite F_head_div by auto using clean_escapeHtml, clean_indentClass.
    rewrite (balance_kids (fun k => renderChild k (S d))).
    + rewrite F_tail_div. lia.
    + eapply Forall_impl; [exact IH|]. intros k Hk. apply Hk.
Qed.

Lemma balance_renderNode n d r : F (renderNode n d ++ r) = F r.
Proof.
  destruct n as [t u [|c cs]].
  - rewrite renderNode_leaf. apply F_leaf.
    + apply clean_class. repeat (constructor; try reflexivity).
    + apply clean_escapeHtml.
    + apply clean_escapeHtml.
  - rewrite renderNode_branch, <- !app_assoc.
    rewrite F_head_section by auto using clean_escapeHtml, clean_nil.
    rewrite (balance_kids (fun k => renderChild k (S d))).
    + rewrite F_tail_section. lia.
    + apply Forall_forall. intros k _. apply balance_renderChild.
Qed.

Lemma balance_renderTree navTree : F (renderTree navTree) = F [].
Proof.
  unfold renderTree. rewrite <- (app_nil_r (concat _)).
  apply balance_kids. apply Forall_forall. intros n _ r.
  apply balance_renderNode.
Qed.

End AccordionBalance.

Section AccordionTags.

Import Accordion.

Local Ltac count_pieces :=
  repeat first
    [ rewrite count_sub_clean by (first [reflexivity | assumption])
    | erewrite count_sub_settled by (vm_compute; reflexivity) ].

Local Ltac constant_balance :=
  repeat match goal with
         | |- context [tag_balance ?n (branch_head ?o [] [] [] [])] =>
             let c := eval vm_compute in (tag_balance n (branch_head o [] [] [] [])) in
             change (tag_balance n (branch_head o [] [] [] [])) with c
         end.

Local Ltac each_tag H :=
  simpl in H;
  destruct H as [<-|[<-|[<-|[<-|[<-|[]]]]]].

Lemma tag_balance_head name open i t cls u r :
  In name template_tags ->
  open = div_open \/ open = section_open ->
  clean i -> clean t -> clean cls -> clean u ->
  tag_balance name (branch_head open i t cls u ++ r)
  = tag_balance name (branch_head open [] [] [] []) + tag_balance name r.
Proof.
  intros Hn Ho Hi Ht Hc Hu.
  each_tag Hn; destruct Ho as [-> | ->]; constant_balance;
    unfold tag_balance, tag_open, tag_close, branch_head;
    rewrite <- !app_assoc; count_pieces; lia.
Qed.

Lemma tag_balance_tail_div name r :
  In name template_tags ->
  tag_balance name (after_kids (js "div") ++ r)
  = - tag_balance name (branch_head div_open [] [] [] [])
    + tag_balance name r.
Proof.
  intros Hn.
  each_tag Hn; constant_balance;
    unfold tag_balance, tag_open, tag_close; count_pieces; lia.
Qed.

Lemma tag_balance_tail_section name r :
  In name template_tags ->
  tag_balance name (after_kids (js "section") ++ r)
  = - tag_balance name (branch_head section_open [] [] [] [])
    + tag_balance name r.
Proof.
  intros Hn.
  each_tag Hn; constant_balance;
    unfold tag_balance, tag_open, tag_close; count_pieces; lia.
Qed.

Lemma tag_balance_leaf name cls t u r :
  In name template_tags ->
  clean cls -> clean t -> clean u ->
  tag_balance name (leaf_link cls t u ++ r) = tag_balance name r.
Proof.
  intros Hn Hc Ht Hu.
  each_tag Hn; unfold tag_balance, tag_open, tag_close, leaf_link;
    rewrite <- !app_assoc; count_pieces; lia.
Qed.

(** X23. The markup rendered for a tree closes every tag it opens: for
    each of [section], [div], [button], [span] and [a] there are as many
    closing tags as opening ones, whatever the titles and URLs hold. *)
Theorem rendered_tags_balance (navTree : list NavNode) (name : jsstring) :
  In name template_tags ->
  count_sub (tag_open name) (renderTree navTree)
  = count_sub (tag_close name) (renderTree navTree).
Proof.
  intros Hn.
  assert (E : tag_balance name (renderTree navTree) = tag_balance name []).
  { apply (balance_renderTree (tag_balance name)
             (tag_balance name (branch_head div_open [] [] [] []))
             (tag_balance name (branch_head section_open [] [] [] []))).
    - intros. apply tag_balance_head; auto.
    - intros. apply tag_balance_tail_div, Hn.
    - intros. apply tag_balance_head; auto.
    - intros. apply tag_balance_tail_section, Hn.
    - intros. apply tag_balance_leaf; auto. }
  unfold tag_balance in E. simpl count_sub in E at 3 4. lia.
Qed.

Lemma rendered_tags_balance_witness :
  let navTree := [Node (js "</div>") (js "/a/")
                    [Node (js "<div>") (js "/a/b/") []]] in
  count_sub (tag_open (js "div")) (renderTree navTree)
  = count_sub (tag_close (js "div")) (renderTree navTree).
Proof.
  intros navTree. apply rendered_tags_balance. simpl. auto.
Defined.

Lemma links_branch_head open i t cls u r :
  open = div_open \/ open = section_open ->
  clean i -> clean t -> clean cls -> clean u ->
  count_sub (js "<a ") (branch_head open i t cls u ++ r)
  = (1 + count_sub (js "<a ") r)%nat.
Proof.
  intros Ho Hi Ht Hc Hu. unfold branch_head. rewrite <- !app_assoc.
  destruct Ho as [-> | ->]; count_pieces; reflexivity.
Qed.

Lemma links_after_kids tag r :
  tag = js "div" \/ tag = js "section" ->
  count_sub (js "<a ") (after_kids tag ++ r) = count_sub (js "<a ") r.
Proof. intros Ho. destruct Ho as [-> | ->]; count_pieces; reflexivity. Qed.

Lemma links_leaf_link cls t u r :
  clean cls -> clean t -> clean u ->
  count_sub (js "<a ") (leaf_link cls t u ++ r)
  = (1 + count_sub (js "<a ") r)%nat.
Proof.
  intros Hc Ht Hu. unfold leaf_link. rewrite <- !app_assoc.
  count_pieces; reflexivity.
Qed.

(** X24. The markup rendered for a tree has one link for each node: the
    link of a leaf, the overview link of a branch. *)
Theorem one_link_per_node (navTree : list NavNode) :
  count_sub (js "<a ") (renderTree navTree) = total nodes navTree.
Proof.
  rewrite (count_renderTree (count_sub (js "<a ")) (fun _ => 1%nat) 1
             links_branch_head links_after_kids links_leaf_link).
  simpl. apply Nat.add_0_r.
Qed.

End AccordionTags.

(** A count [F] that adds up over the pieces of the templates as they are
    at depth 0 and at the depths below adds up over the rendering of a
    tree, the top-level nodes apart from the nodes below them. *)
Section AccordionDepth.

Import Accordion.

Variable F : jsstring -> nat.
Variables topb topl wb wl : nat.

Hypothesis F_top_head :
  forall i t u r, clean i -> clean t -> clean u ->
    F (branch_head section_open i t [] u ++ r) = (topb + F r)%nat.
Hypothesis F_top_tail :
  forall r, F (after_kids (js "section") ++ r) = F r.
Hypothesis F_top_leaf :
  forall t u r, clean t -> clean u ->
    F (leaf_link (js "drawer__leaf") t u ++ r) = (topl + F r)%nat.
Hypothesis F_deep_head :
  forall i t u r, clean i -> clean t -> clean u ->
    F (branch_head div_open i t indent_class u ++ r) = (wb + F r)%nat.
Hypothesis F_deep_tail :
  forall r, F (after_kids (js "div") ++ r) = F r.
Hypothesis F_deep_leaf :
  forall t u r, clean t -> clean u ->
    F (leaf_link (js "acc__child" ++ indent_class) t u ++ r)
    = (wl + F r)%nat.

Lemma depth_kids (f : NavNode -> jsstring) (w : NavNode -> nat) cs r :
  Forall (fun c => forall r, F (f c ++ r) = (w c + F r)%nat) cs ->
  F (concat (List.map f cs) ++ r) = (list_sum (List.map w cs) + F r)%nat.
Proof.
  induction 1 as [|c cs Hc _ IH]; simpl; [reflexivity|].
  rewrite <- app_assoc, Hc, IH. lia.
Qed.

Lemma depth_renderChild n :
  forall d r,
    F (renderChild n (S d) ++ r) = (weigh (fun _ => wb) wl n + F r)%nat.
Proof.
  induction n as [t u cs IH] using NavNode_ind_list. intros d r.
  destruct cs as [|c cs].
  - rewrite renderChild_leaf. apply F_deep_leaf; apply clean_escapeHtml.
  - rewrite renderChild_branch, <- !app_assoc.
    change (indentClass (S d)) with indent_class.
    rewrite F_deep_head by apply clean_escapeHtml.
    rewrite (depth_kids (fun k => renderChild k (S (S d)))
               (weigh (fun _ => wb) wl)).
    + rewrite F_deep_tail. cbn [weigh]. lia.
    + eapply Forall_impl; [exact IH|]. intros k Hk. apply Hk.
Qed.

Lemma depth_renderNode n r :
  F (renderNode n 0 ++ r) = (top_weight topb topl wb wl n + F r)%nat.
Proof.
  destruct n as [t u [|c cs]].
  - rewrite renderNode_leaf.
    change (js "drawer__leaf" ++ indentClass 0) with (js "drawer__leaf").
    apply F_top_leaf; apply clean_escapeHtml.
  - rewrite renderNode_branch, <- !app_assoc.
    rewrite F_top_head by apply clean_escapeHtml.
    rewrite (depth_kids (fun k => renderChild k 1) (weigh (fun _ => wb) wl)).
    + rewrite F_top_tail. cbn [top_weight]. lia.
    + apply Forall_forall. intros k _. apply depth_renderChild.
Qed.

Lemma depth_renderTree navTree :
  F (renderTree navTree)
  = (total (top_weight topb topl wb wl) navTree + F [])%nat.
Proof.
  unfold renderTree, total. rewrite <- (app_nil_r (concat _)).
  apply depth_kids. apply Forall_forall. intros n _. apply depth_renderNode.
Qed.

End AccordionDepth.

Section AccordionIndent.

Import Accordion.

Local Ltac count_pieces :=
  repeat first
    [ rewrite count_sub_clean by (first [reflexivity | assumption])
    | erewrite count_sub_settled by (vm_compute; reflexivity) ].

Lemma branch_head_class open i t cls u :
  branch_head open i t cls u
  = before_open ++ open ++ i ++ dq ++ before_button ++ button_open ++ i
    ++ dq ++ before_title ++ t ++ class_attr cls ++ u ++ after_href ++ t
    ++ before_kids.
Proof.
  unfold branch_head, class_attr. rewrite <- !app_assoc. reflexivity.
Qed.

Lemma leaf_link_start cls t u :
  leaf_link cls t u = leaf_start cls ++ u ++ after_href ++ t ++ js "</a>".
Proof.
  unfold leaf_link, leaf_start. rewrite <- !app_assoc. reflexivity.
Qed.

Local Ltac head_pieces :=
  intros; rewrite branch_head_class, <- !app_assoc;
  count_pieces; reflexivity.

Local Ltac leaf_pieces :=
  intros; rewrite leaf_link_start, <- !app_assoc;
  count_pieces; reflexivity.

Local Ltac tail_pieces := intros; count_pieces; reflexivity.

Lemma indented_top_head i t u r :
  clean i -> clean t -> clean u ->
  count_sub indented_link (branch_head section_open i t [] u ++ r)
  = (0 + count_sub indented_link r)%nat.
Proof. head_pieces. Qed.

Lemma indented_top_tail r :
  count_sub indented_link (after_kids (js "section") ++ r) = count_sub indented_link r.
Proof. tail_pieces. Qed.

Lemma indented_top_leaf t u r :
  clean t -> clean u ->
  count_sub indented_link (leaf_link (js "drawer__leaf") t u ++ r)
  = (0 + count_sub indented_link r)%nat.
Proof. leaf_pieces. Qed.

Lemma indented_deep_head i t u r :
  clean i -> clean t -> clean u ->
  count_sub indented_link (branch_head div_open i t indent_class u ++ r)
  = (1 + count_sub indented_link r)%nat.
Proof. head_pieces. Qed.

Lemma indented_deep_tail r :
  count_sub indented_link (after_kids (js "div") ++ r) = count_sub indented_link r.
Proof. tail_pieces. Qed.

Lemma indented_deep_leaf t u r :
  clean t -> clean u ->
  count_sub indented_link (leaf_link (js "acc__child" ++ indent_class) t u ++ r)
  = (1 + count_sub indented_link r)%nat.
Proof. leaf_pieces. Qed.

Lemma unindented_top_head i t u r :
  clean i -> clean t -> clean u ->
  count_sub unindented_link (branch_head section_open i t [] u ++ r)
  = (1 + count_sub unindented_link r)%nat.
Proof. head_pieces. Qed.

Lemma unindented_top_tail r :
  count_sub unindented_link (after_kids (js "section") ++ r) = count_sub unindented_link r.
Proof. tail_pieces. Qed.

Lemma unindented_top_leaf t u r :
  clean t -> clean u ->
  count_sub unindented_link (leaf_link (js "drawer__leaf") t u ++ r)
  = (0 + count_sub unindented_link r)%nat.
Proof. leaf_pieces. Qed.

Lemma unindented_deep_head i t u r :
  clean i -> clean t -> clean u ->
  count_sub unindented_link (branch_head div_open i t indent_class u ++ r)
  = (0 + count_sub unindented_link r)%nat.
Proof. head_pieces. Qed.

Lemma unindented_deep_tail r :
  count_sub unindented_link (after_kids (js "div") ++ r) = count_sub unindented_link r.
Proof. tail_pieces. Qed.

Lemma unindented_deep_leaf t u r :
  clean t -> clean u ->
  count_sub unindented_link (leaf_link (js "acc__child" ++ indent_class) t u ++ r)
  = (0 + count_sub unindented_link r)%nat.
Proof. leaf_pieces. Qed.

Lemma top_leaf_top_head i t u r :
  clean i -> clean t -> clean u ->
  count_sub top_leaf_link (branch_head section_open i t [] u ++ r)
  = (0 + count_sub top_leaf_link r)%nat.
Proof. head_pieces. Qed.

Lemma top_leaf_top_tail r :
  count_sub top_leaf_link (after_kids (js "section") ++ r) = count_sub top_leaf_link r.
Proof. tail_pieces. Qed.

Lemma top_leaf_top_leaf t u r :
  clean t -> clean u ->
  count_sub top_leaf_link (leaf_link (js "drawer__leaf") t u ++ r)
  = (1 + count_sub top_leaf_link r)%nat.
Proof. leaf_pieces. Qed.

Lemma top_leaf_deep_head i t u r :
  clean i -> clean t -> clean u ->
  count_sub top_leaf_link (branch_head div_open i t indent_class u ++ r)
  = (0 + count_sub top_leaf_link r)%nat.
Proof. head_pieces. Qed.

Lemma top_leaf_deep_tail r :
  count_sub top_leaf_link (after_kids (js "div") ++ r) = count_sub top_leaf_link r.
Proof. tail_pieces. Qed.

Lemma top_leaf_deep_leaf t u r :
  clean t -> clean u ->
  count_sub top_leaf_link (leaf_link (js "acc__child" ++ indent_class) t u ++ r)
  = (0 + count_sub top_leaf_link r)%nat.
Proof. leaf_pieces. Qed.

Lemma indented_leaf_top_head i t u r :
  clean i -> clean t -> clean u ->
  count_sub indented_leaf_link (branch_head section_open i t [] u ++ r)
  = (0 + count_sub indented_leaf_link r)%nat.
Proof. head_pieces. Qed.

Lemma indented_leaf_top_tail r :
  count_sub indented_leaf_link (after_kids (js "section") ++ r) = count_sub indented_leaf_link r.
Proof. tail_pieces. Qed.

Lemma indented_leaf_top_leaf t u r :
  clean t -> clean u ->
  count_sub indented_leaf_link (leaf_link (js "drawer__leaf") t u ++ r)
  = (0 + count_sub indented_leaf_link r)%nat.
Proof. leaf_pieces. Qed.

Lemma indented_leaf_deep_head i t u r :
  clean i -> clean t -> clean u ->
  count_sub indented_leaf_link (branch_head div_open i t indent_class u ++ r)
  = (0 + count_sub indented_leaf_link r)%nat.
Proof. head_pieces. Qed.

Lemma indented_leaf_deep_tail r :
  count_sub indented_leaf_link (after_kids (js "div") ++ r) = count_sub indented_leaf_link r.
Proof. tail_pieces. Qed.

Lemma indented_leaf_deep_leaf t u r :
  clean t -> clean u ->
  count_sub indented_leaf_link (leaf_link (js "acc__child" ++ indent_class) t u ++ r)
  = (0 + count_sub indented_leaf_link r)%nat.
Proof. leaf_pieces. Qed.

Lemma top_weight_zero n : top_weight 0 0 0 0 n = 0%nat.
Proof.
  destruct n as [t u [|c cs]]; [reflexivity|].
  cbn [top_weight]. apply list_sum_zero, Forall_forall.
  intros k _. apply weigh_zero.
Qed.

(** X25. The indentation follows the depth. In the markup rendered for
    a tree the link of every node below the top level carries the
    indentation class, the overview links of the top-level branches are
    the only [acc__child] links without it, and the top-level leaves are
    the [drawer__leaf] links, which never carry it. *)
Theorem indentation_follows_depth (navTree : list NavNode) :
  let out := renderTree navTree in
  count_sub indented_link out = total nested_nodes navTree
  /\ count_sub unindented_link out = total top_branch navTree
  /\ count_sub top_leaf_link out = total top_leaf navTree
  /\ count_sub indented_leaf_link out = 0%nat.
Proof.
  intros out. unfold out.
  rewrite (depth_renderTree (count_sub indented_link) 0 0 1 1
             indented_top_head indented_top_tail indented_top_leaf
             indented_deep_head indented_deep_tail indented_deep_leaf).
  rewrite (depth_renderTree (count_sub unindented_link) 1 0 0 0
             unindented_top_head unindented_top_tail unindented_top_leaf
             unindented_deep_head unindented_deep_tail unindented_deep_leaf).
  rewrite (depth_renderTree (count_sub top_leaf_link) 0 1 0 0
             top_leaf_top_head top_leaf_top_tail top_leaf_top_leaf
             top_leaf_deep_head top_leaf_deep_tail top_leaf_deep_leaf).
  rewrite (depth_renderTree (count_sub indented_leaf_link) 0 0 0 0
             indented_leaf_top_head indented_leaf_top_tail
             indented_leaf_top_leaf indented_leaf_deep_head
             indented_leaf_deep_tail indented_leaf_deep_leaf).
  cbn [count_sub]. rewrite !Nat.add_0_r.
  repeat split. unfold total. apply list_sum_zero.
  apply Forall_forall. intros n _. apply top_weight_zero.
Qed.

End AccordionIndent.
